(** * Parameter-server container: logical clock, future pools, aggregator

  A shallow embedding of [src/box/container.h] (class [PS::Container]),
  [src/filter/filter.h] (class [ps::IFilter]) and the worker API of [ps.h]
  (class [KVCache]).  Functions whose bodies are in the header are
  translated from it.  The collaborators the header only includes
  ([system/aggregator.h], the [FuturePool] of [util/], the bodies of
  [container.cc] and [ps-inl.h]) are modelled from the specification and
  are marked as such. *)

From stdpp Require Import base numbers list gmap fin_sets sorting.

Local Open Scope Z_scope.

#[local] Set Warnings "-clear-no-such-hyp".

(** ** Machine integers *)

Definition kint32max : Z := 2147483647.
Definition kint32min : Z := -2147483648.

(** A C++ [int] is 32 bits wide; [wrap32] is the two's complement
    wrap-around of an out-of-range result. *)
Definition wrap32 (z : Z) : Z := (z + 2 ^ 31) `mod` 2 ^ 32 - 2 ^ 31.

Definition in_int32 (z : Z) : Prop := kint32min ≤ z ≤ kint32max.

(** ** Errors *)

Inductive Error : Set :=
| UnknownTimeError
| DuplicateTimeError
| SendError.

Inductive result (A : Type) : Type :=
| Ok (a : A)
| Err (e : Error).
Arguments Ok {A} a.
Arguments Err {A} e.

#[global] Instance result_ret : MRet result := λ A a, Ok a.
#[global] Instance result_bind : MBind result :=
  λ A B f r, match r with Ok a => f a | Err e => Err e end.

#[global] Instance Error_eq_dec : EqDecision Error.
Proof. solve_decision. Defined.

(** ** Envelopes *)

(** Modelled from the spec: the envelope, [Header] and [Mail] of
    [util/mail.h] (outside [src/]).  The container reads [flag()] of a mail
    and [type()] and [time()] of a header; [type] is a bit set, [time] the
    logical time the envelope belongs to, [sender] the node that sent it,
    and a mail carries its keys and values in order. *)
Record Header : Set := mkHeader {
  type : Z;
  time : Z;
  sender : Z;
}.

Record Mail : Set := mkMail {
  flag : Header;
  keys : list Z;
  vals : list Z;
}.

(** A node group is a set of node identities. *)
Abbreviation NodeGroup := (gset Z).

(** ** FuturePool *)

Module FuturePool.

(** Modelled from the spec: the class [FuturePool<V>] (declared outside
    [src/]).  It maps a logical time to a completion cell; a cell is
    pending ([None]) or satisfied with a result ([Some v]). *)
Abbreviation t V := (gmap Z (option V)).

(** The three ways a [wait] can go. *)
Inductive Outcome (V : Type) : Type :=
| Ready (v : V)
| Blocks
| Fails (e : Error).
Arguments Ready {V} v.
Arguments Blocks {V}.
Arguments Fails {V} e.

(** Modelled from the spec: [create(time)] registers a new pending cell and
    fails with [DuplicateTimeError] if one is already present. *)
Definition Create {V} (time : Z) (p : t V) : result (t V) :=
  match p !! time with
  | Some _ => Err DuplicateTimeError
  | None => Ok (<[time := None]> p)
  end.

(** Modelled from the spec: [set(time, result)] marks the cell satisfied
    with [result] and fails with [UnknownTimeError] if it is not
    registered. *)
Definition Set_ {V} (time : Z) (v : V) (p : t V) : result (t V) :=
  match p !! time with
  | Some _ => Ok (<[time := Some v]> p)
  | None => Err UnknownTimeError
  end.

(** Modelled from the spec: [wait(time)] returns the result of a satisfied
    cell and leaves the cell in place, blocks on a pending cell, and fails
    with [UnknownTimeError] if the time was never registered.  The pool
    after the call is returned next to the outcome. *)
Definition Wait {V} (time : Z) (p : t V) : Outcome V * t V :=
  match p !! time with
  | Some (Some v) => (Ready v, p)
  | Some None => (Blocks, p)
  | None => (Fails UnknownTimeError, p)
  end.

(** The times whose cell is pending. *)
Definition pending {V} (p : t V) : gset Z :=
  dom (filter (λ kv : Z * option V, kv.2 = None) p).

(** The pending times before [before], the requests issued earlier that are
    still unacknowledged. *)
Definition outstanding {V} (p : t V) (before : Z) : gset Z :=
  filter (λ x, x < before) (pending p).

End FuturePool.

(** ** Aggregator *)

Module Aggregator.

(** Modelled from the spec: a pending request of [system/aggregator.h]
    (outside [src/]): the destination nodes the request targeted and the
    ones that have acknowledged. *)
Record Pending : Type := mkPending {
  targets : gset Z;
  acked : gset Z;
}.

Abbreviation t := (gmap Z Pending).

(** Modelled from the spec: issuing a request registers its pending set. *)
Definition Register (time : Z) (dests : NodeGroup) (a : t) : t :=
  <[time := mkPending dests ∅]> a.

(** Modelled from the spec: [insert] records the sender of a reply against
    the pending set of the reply's time; with no pending set the reply is
    dropped. *)
Definition Insert (mail : Mail) (a : t) : t :=
  match a !! time (flag mail) with
  | Some p =>
      <[time (flag mail) := mkPending (targets p) ({[sender (flag mail)]} ∪ acked p)]> a
  | None => a
  end.

(** Modelled from the spec: [success(time, node_group)] holds when every
    member of the group expected for [time] has acknowledged. A time with
    no pending set has no acknowledgment to count. *)
Definition Success (time : Z) (group : NodeGroup) (a : t) : bool :=
  match a !! time with
  | Some p => bool_decide (group ∩ targets p ⊆ acked p)
  | None => false
  end.

(** Modelled from the spec: [delete(time)] releases the tracking state. *)
Definition Delete (time : Z) (a : t) : t := delete time a.

(** The replies of a list inserted one after the other, first to last. *)
Definition InsertAll (mails : list Mail) (a : t) : t :=
  foldl (λ acc m, Insert m acc) a mails.

End Aggregator.

(** ** Filters *)

Section Filter.

(** [Message] is declared in [system/message.h], outside [src/]. *)
Variable Message : Type.

(** [virtual void Encode(Message* msg) { }] and
    [virtual void Decode(Message* msg) { }]: the message after the call. *)
Definition IFilter_Encode (msg : Message) : Message := msg.
Definition IFilter_Decode (msg : Message) : Message := msg.

End Filter.

(** ** The container *)

(** What the container asks of its postmaster (a collaborator outside
    [src/]) at the moment of a call: the node group of the container
    ([postmaster_->GetNodeGroup(name())]), whether this node is a server
    ([my_node().is_server()]) and the identity of this node. *)
Record Postmaster : Type := mkPostmaster {
  GetNodeGroup : NodeGroup;
  is_server : bool;
  my_node : Z;
}.

(** The data members of [Container] that its operations read or write.
    [name_], [key_range_], the mutex, the collaborator pointers and the
    callbacks carry no state of the protocol and are left out. *)
Record Container : Type := mkContainer {
  aggregator_ : Aggregator.t;
  cur_time_ : Z;
  mails_received_ : list Mail;
  max_push_delay_ : Z;
  max_pull_delay_ : Z;
  push_pool_ : FuturePool.t bool;
  pull_pool_ : FuturePool.t bool;
  pull_aggregator_ : Aggregator.t;
}.

(** Assignment to one data member. *)
Definition with_cur_time (t : Z) (c : Container) : Container :=
  mkContainer (aggregator_ c) t (mails_received_ c) (max_push_delay_ c)
    (max_pull_delay_ c) (push_pool_ c) (pull_pool_ c) (pull_aggregator_ c).

Definition with_mails_received (q : list Mail) (c : Container) : Container :=
  mkContainer (aggregator_ c) (cur_time_ c) q (max_push_delay_ c)
    (max_pull_delay_ c) (push_pool_ c) (pull_pool_ c) (pull_aggregator_ c).

Definition with_max_push_delay (d : Z) (c : Container) : Container :=
  mkContainer (aggregator_ c) (cur_time_ c) (mails_received_ c) d
    (max_pull_delay_ c) (push_pool_ c) (pull_pool_ c) (pull_aggregator_ c).

Definition with_max_pull_delay (d : Z) (c : Container) : Container :=
  mkContainer (aggregator_ c) (cur_time_ c) (mails_received_ c)
    (max_push_delay_ c) d (push_pool_ c) (pull_pool_ c) (pull_aggregator_ c).

Definition with_push_pool (p : FuturePool.t bool) (c : Container) : Container :=
  mkContainer (aggregator_ c) (cur_time_ c) (mails_received_ c)
    (max_push_delay_ c) (max_pull_delay_ c) p (pull_pool_ c)
    (pull_aggregator_ c).

Definition with_pull_pool (p : FuturePool.t bool) (c : Container) : Container :=
  mkContainer (aggregator_ c) (cur_time_ c) (mails_received_ c)
    (max_push_delay_ c) (max_pull_delay_ c) (push_pool_ c) p
    (pull_aggregator_ c).

Definition with_pull_aggregator (a : Aggregator.t) (c : Container) : Container :=
  mkContainer (aggregator_ c) (cur_time_ c) (mails_received_ c)
    (max_push_delay_ c) (max_pull_delay_ c) (push_pool_ c) (pull_pool_ c) a.

(** [static const int kInfDelay = kint32max]. *)
Definition kInfDelay : Z := kint32max.

(** [static const int kCurTime = -1]. *)
Definition kCurTime : Z := -1.

(** *** Consistency budgets *)

(** [SetMaxDelay(push, pull)]: both budgets, clamped at 0 by [std::max]. *)
Definition SetMaxDelay (push pull : Z) (c : Container) : Container :=
  with_max_pull_delay (Z.max pull 0) (with_max_push_delay (Z.max push 0) c).

(** [SetMaxPushDelay(delay)] and [SetMaxPullDelay(delay)]: one budget. *)
Definition SetMaxPushDelay (delay : Z) (c : Container) : Container :=
  with_max_push_delay (Z.max delay 0) c.

Definition SetMaxPullDelay (delay : Z) (c : Container) : Container :=
  with_max_pull_delay (Z.max delay 0) c.

(** The three ways of configuring the budgets. *)
Inductive DelayCall : Set :=
| CallSetMaxDelay (push pull : Z)
| CallSetMaxPushDelay (delay : Z)
| CallSetMaxPullDelay (delay : Z).

(** The container after a setter call. *)
Definition configure (k : DelayCall) (c : Container) : Container :=
  match k with
  | CallSetMaxDelay push pull => SetMaxDelay push pull c
  | CallSetMaxPushDelay delay => SetMaxPushDelay delay c
  | CallSetMaxPullDelay delay => SetMaxPullDelay delay c
  end.

(** *** Logical clock *)

(** [int IncrClock() { ScopeLock lock(&mutex_); return ++cur_time_; }]:
    the new time is returned and stored.  [cur_time_] is an [int]. *)
Definition IncrClock (c : Container) : Z * Container :=
  let t := wrap32 (cur_time_ c + 1) in (t, with_cur_time t c).

(** [int Clock() const { return cur_time_; }]. *)
Definition Clock (c : Container) : Z := cur_time_ c.

(** *** Consistency window *)

(** Modelled from the spec: the oldest unacknowledged time among the
    requests issued before [new_time]. *)
Definition oldest_unacknowledged (pool : FuturePool.t bool) (new_time : Z) : option Z :=
  match elements (FuturePool.outstanding pool new_time) with
  | [] => None
  | x :: r => Some (foldr Z.min x r)
  end.

(** Modelled from the spec: the consistency window of [box/consistency.h]
    (outside [src/]) asks whether [new_time - oldest_unacknowledged_time] is
    within the budget.  The boundary is the one the spec fixes for a budget
    of N: after N outstanding unacknowledged requests a further request
    blocks.  So a request is held when its oldest unacknowledged predecessor
    lies N or more logical times behind it.  A request with no
    unacknowledged predecessor has nothing to wait for, and a budget of
    [kInfDelay] never blocks. *)
Definition within_budget (budget : Z) (pool : FuturePool.t bool) (new_time : Z) : bool :=
  (budget =? kInfDelay)
  || match oldest_unacknowledged pool new_time with
     | None => true
     | Some o => new_time - o <? budget
     end.

(** *** Requests and replies *)

(** What a call on a pull-side collaborator did, and the times the clock
    handed out; a run of the container leaves a list of these behind. *)
Inductive Event : Set :=
| EvTime (tm : Z)
| EvSuccess (tm : Z) (ok : bool)
| EvSet (tm : Z)
| EvDelete (tm : Z).

#[global] Instance Event_eq_dec : EqDecision Event.
Proof. solve_decision. Defined.

(** How far a [Push] or [Pull] got: the envelope went to the transport, the
    call is held at the consistency window, or it failed. *)
Inductive Issue : Type :=
| Sent (envelope : Mail)
| Blocked
| Failed (e : Error).

(** [SyncOpts] of [ps.h]: the times the request depends on and the
    zero-copy flag; the callback carries no state of the protocol. *)
Record SyncOpts : Set := mkSyncOpts {
  deps : list Z;
  zero_copy : bool;
}.

(** [CBlob<K>(keys)]: a view of the vector, the same elements in order. *)
Definition CBlob (v : list Z) : list Z := v.

(** [ty & mask] read as a condition: the bitwise and is not zero. *)
Definition has_bit (ty mask : Z) : bool := negb (Z.land ty mask =? 0).

Section ContainerOps.

(** The values of the bit flags [Header::PUSH], [Header::PULL] and
    [Header::REPLY] are declared outside [src/]. *)
Variables Header_PUSH Header_PULL Header_REPLY : Z.

(** [ReadAll] (processing of the receiving queue) is declared in the header
    and defined outside [src/]. *)
Variable ReadAll : Container → Container.

(** [Accept(mail)]: the mail is queued; a reply is inserted in the pull
    aggregator and, when the aggregation succeeds for its time, the pull
    future is set and the aggregator entry deleted; a server then reads the
    queue.  [WaitInited] only delays the call.  The outcome of the success
    test and the set and delete that follow it are logged next to the
    container. *)
Definition Accept (pm : Postmaster) (mail : Mail) (c : Container)
  : result (Container * list Event) :=
  let c1 := with_mails_received (mails_received_ c ++ [mail]) c in
  r ← (if has_bit (type (flag mail)) Header_REPLY then
         let tm := time (flag mail) in
         let agg := Aggregator.Insert mail (pull_aggregator_ c1) in
         if Aggregator.Success tm (GetNodeGroup pm) agg then
           pool ← FuturePool.Set_ tm true (pull_pool_ c1);
           Ok (with_pull_aggregator (Aggregator.Delete tm agg) (with_pull_pool pool c1),
               [EvSuccess tm true; EvSet tm; EvDelete tm])
         else Ok (with_pull_aggregator agg c1, [EvSuccess tm false])
       else Ok (c1, []));
  Ok (if is_server pm then ReadAll r.1 else r.1, r.2).

(** [Notify(flag)]: a sent push sets its push future. *)
Definition Notify (flag : Header) (c : Container) : result Container :=
  if has_bit (type flag) Header_PUSH then
    pool ← FuturePool.Set_ (time flag) true (push_pool_ c);
    Ok (with_push_pool pool c)
  else Ok c.

(** [AggregateSuccess(time)]. *)
Definition AggregateSuccess (pm : Postmaster) (tm : Z) (c : Container) : bool :=
  Aggregator.Success tm (GetNodeGroup pm) (aggregator_ c).

(** Modelled from the spec: [Container::Push] (body in [container.cc],
    outside [src/]).  The call takes the next logical time, registers the
    push future of that time, applies the consistency window to the earlier
    pushes, and hands the envelope to the transport; a failed send leaves
    nothing registered.  The pending state of a push is its cell in
    [push_pool_], which [Notify] completes. *)
Definition Push (pm : Postmaster) (send_ok : bool) (ks vs : list Z) (c : Container)
  : Z * Issue * Container :=
  let '(t, c1) := IncrClock c in
  match FuturePool.Create t (push_pool_ c1) with
  | Err e => (t, Failed e, c1)
  | Ok pool =>
      if within_budget (max_push_delay_ c1) (push_pool_ c1) t then
        if send_ok
        then (t, Sent (mkMail (mkHeader Header_PUSH t (my_node pm)) ks vs),
              with_push_pool pool c1)
        else (t, Failed SendError, c1)
      else (t, Blocked, with_push_pool pool c1)
  end.

(** Modelled from the spec: [Container::Pull] (body in [container.cc],
    outside [src/]).  As [Push], on the pull future pool and the pull
    budget; the receivers of the request are stored in [pull_aggregator_]. *)
Definition Pull (pm : Postmaster) (send_ok : bool) (ks : list Z) (c : Container)
  : Z * Issue * Container :=
  let '(t, c1) := IncrClock c in
  match FuturePool.Create t (pull_pool_ c1) with
  | Err e => (t, Failed e, c1)
  | Ok pool =>
      let c2 :=
        with_pull_aggregator
          (Aggregator.Register t (GetNodeGroup pm) (pull_aggregator_ c1))
          (with_pull_pool pool c1) in
      if within_budget (max_pull_delay_ c1) (pull_pool_ c1) t then
        if send_ok
        then (t, Sent (mkMail (mkHeader Header_PULL t (my_node pm)) ks []), c2)
        else (t, Failed SendError, c1)
      else (t, Blocked, c2)
  end.

(** Modelled from the spec: [Container::Wait] (declared in the header, body
    in [container.cc], outside [src/]) waits on the future registered for
    [time], a push future or else a pull future, and fails with
    [UnknownTimeError] when there is none.  The declaration's default
    argument [kCurTime] stands for the current time; how the body resolves
    it is not in [src/], and the model takes the time explicitly. *)
Definition Wait (tm : Z) (c : Container) : FuturePool.Outcome bool * Container :=
  match FuturePool.Wait tm (push_pool_ c) with
  | (FuturePool.Fails UnknownTimeError, _) =>
      let '(o, p) := FuturePool.Wait tm (pull_pool_ c) in (o, with_pull_pool p c)
  | (o, p) => (o, with_push_pool p c)
  end.

(** Modelled from the spec: [KVCache::Push] and [KVCache::Pull] on blobs
    (bodies in [ps-inl.h], outside [src/]): the cache hands the request to
    its container and returns the timestamp of the request. *)
Definition KVCache_Push_blob (pm : Postmaster) (send_ok : bool) (ks vs : list Z)
  (opts : SyncOpts) (c : Container) : Z * Issue * Container :=
  Push pm send_ok ks vs c.

Definition KVCache_Pull_blob (pm : Postmaster) (send_ok : bool) (ks : list Z)
  (opts : SyncOpts) (c : Container) : Z * Issue * Container :=
  Pull pm send_ok ks c.

(** [KVCache::Push] on vectors: [return Push(CBlob<K>(keys),
    CBlob<V>(values), opts);]. *)
Definition KVCache_Push (pm : Postmaster) (send_ok : bool) (ks vs : list Z)
  (opts : SyncOpts) (c : Container) : Z * Issue * Container :=
  KVCache_Push_blob pm send_ok (CBlob ks) (CBlob vs) opts c.

(** [KVCache::Pull] on vectors: [return Pull(CBlob<K>(keys),
    Blob<V>( *values), opts);]. *)
Definition KVCache_Pull (pm : Postmaster) (send_ok : bool) (ks : list Z)
  (opts : SyncOpts) (c : Container) : Z * Issue * Container :=
  KVCache_Pull_blob pm send_ok (CBlob ks) opts c.

(** *** Runs *)

(** The calls a container receives, from the application and from the
    transport. *)
Inductive Call : Type :=
| CallPush (send_ok : bool) (ks vs : list Z)
| CallPull (send_ok : bool) (ks : list Z)
| CallIncrClock
| CallConfigure (k : DelayCall)
| CallAccept (mail : Mail)
| CallNotify (flag : Header).

Definition step (pm : Postmaster) (k : Call) (c : Container)
  : result (Container * list Event) :=
  match k with
  | CallPush send_ok ks vs =>
      let r := Push pm send_ok ks vs c in Ok (r.2, [EvTime r.1.1])
  | CallPull send_ok ks =>
      let r := Pull pm send_ok ks c in Ok (r.2, [EvTime r.1.1])
  | CallIncrClock =>
      let r := IncrClock c in Ok (r.2, [EvTime r.1])
  | CallConfigure k => Ok (configure k c, [])
  | CallAccept mail => Accept pm mail c
  | CallNotify flag => c' ← Notify flag c; Ok (c', [])
  end.

(** A run: the calls in order, each with the postmaster's answers at that
    moment; the first failing call ends it. *)
Fixpoint run (ks : list (Postmaster * Call)) (c : Container)
  : result (Container * list Event) :=
  match ks with
  | [] => Ok (c, [])
  | (pm, k) :: rest =>
      r1 ← step pm k c;
      r2 ← run rest r1.1;
      Ok (r2.1, r1.2 ++ r2.2)
  end.

(** The logical times handed out during a run, in order. *)
Definition issued_times (evs : list Event) : list Z :=
  omap (λ e, match e with EvTime t => Some t | _ => None end) evs.

(** *** Auxiliary notions for the statements *)

(** The senders of the replies for time [tm] in a list of mails. *)
Definition senders_at (tm : Z) (mails : list Mail) : gset Z :=
  list_to_set (sender ∘ flag <$> filter (λ m, time (flag m) = tm) mails).

(** The calls that take a logical time. *)
Definition clock_call (k : Call) : Prop :=
  match k with
  | CallPush _ _ _ | CallPull _ _ | CallIncrClock => True
  | _ => False
  end.

(** How often an event occurs in a trace. *)
Definition occurrences (e : Event) (evs : list Event) : nat :=
  length (filter (λ x, x = e) evs).

(** The events one call leaves: none, a time taken, a failed success test,
    or a successful test directly followed by the set of the future and the
    delete of the pending set. *)
Definition call_events (b : list Event) : Prop :=
  b = [] ∨ (∃ t, b = [EvTime t]) ∨ (∃ tm, b = [EvSuccess tm false])
  ∨ (∃ tm, b = [EvSuccess tm true; EvSet tm; EvDelete tm]).

(** No pending set is registered for a time the clock has not reached. *)
Definition pending_bounded (c : Container) : Prop :=
  ∀ tm, is_Some (pull_aggregator_ c !! tm) → tm ≤ cur_time_ c.


(** Every pending set has its pull future. *)
Definition pull_registered (c : Container) : Prop :=
  ∀ tm, is_Some (pull_aggregator_ c !! tm) → is_Some (pull_pool_ c !! tm).

(** The calls other than [Notify]. *)
Definition not_notify (k : Call) : Prop :=
  match k with
  | CallNotify _ => False
  | _ => True
  end.

(** *** A worked scenario *)

(** A worker (node 1) that talks to a group of two servers (nodes 10 and
    11), a container that has not issued anything yet, and a [ReadAll] that
    empties the queue. *)
Definition example_pm : Postmaster := mkPostmaster {[10; 11]} false 1.

Definition example_container : Container :=
  mkContainer ∅ 0 [] kInfDelay kInfDelay ∅ ∅ ∅.

Definition drain (c : Container) : Container := with_mails_received [] c.

(** The reply of server [n] to the pull of time [tm]; 4 stands for the
    REPLY bit and 2 for the PULL bit. *)
Definition example_reply (n tm : Z) : Mail :=
  mkMail (mkHeader 6 tm n) [1; 3] [11; 12; 31; 32].

(** Budgets of one; a push (time 1) that is sent; a pull (time 2) answered
    by both servers, the second of them twice; a tick of the clock. *)
Definition example_calls : list (Postmaster * Call) :=
  [ (example_pm, CallConfigure (CallSetMaxDelay 1 1));
    (example_pm, CallPush true [1; 3] [11; 12; 31; 32]);
    (example_pm, CallNotify (mkHeader 1 1 1));
    (example_pm, CallPull true [1; 3]);
    (example_pm, CallAccept (example_reply 10 2));
    (example_pm, CallAccept (example_reply 11 2));
    (example_pm, CallAccept (example_reply 11 2));
    (example_pm, CallIncrClock) ].

Definition example_trace : list Event :=
  [ EvTime 1; EvTime 2; EvSuccess 2 false;
    EvSuccess 2 true; EvSet 2; EvDelete 2;
    EvSuccess 2 false; EvTime 3 ].

(** *** Notions for further properties *)

(** [n] calls of [IncrClock] in a row: the container after them. *)
Definition ticks (n : nat) (c : Container) : Container :=
  Nat.iter n (λ d, (IncrClock d).2) c.

(** The mails a list of calls hands to [Accept], in order. *)
Definition accepted_mails (ks : list (Postmaster * Call)) : list Mail :=
  omap (λ pk, match pk.2 with CallAccept m => Some m | _ => None end) ks.

(** The calls that accept the mails of a list, one after the other, under
    the same answers of the postmaster. *)
Definition accept_calls (pm : Postmaster) (mails : list Mail)
  : list (Postmaster * Call) :=
  map (λ m, (pm, CallAccept m)) mails.

(** Between two states of a future pool no future has been removed and no
    future satisfied with [true] has changed. *)
Definition futures_kept (p p' : FuturePool.t bool) : Prop :=
  ∀ tm, (is_Some (p !! tm) → is_Some (p' !! tm))
        ∧ (p !! tm = Some (Some true) → p' !! tm = Some (Some true)).

(** * Properties *)

(** ** Small facts about the data *)

Lemma wrap32_id (z : Z) : in_int32 z → wrap32 z = z.
Proof.
  unfold in_int32, wrap32, kint32min, kint32max. intros Hz.
  rewrite Z.mod_small; lia.
Qed.

Lemma with_push_pool_id (c : Container) : with_push_pool (push_pool_ c) c = c.
Proof. by destruct c. Qed.

Lemma with_pull_pool_id (c : Container) : with_pull_pool (pull_pool_ c) c = c.
Proof. by destruct c. Qed.

(** ** FuturePool *)

Lemma FuturePool_Set_lookup {V} (tm : Z) (v : V) (p p' : FuturePool.t V) (t' : Z) :
  FuturePool.Set_ tm v p = Ok p' →
  p' !! t' = if decide (tm = t') then Some (Some v) else p !! t'.
Proof.
  unfold FuturePool.Set_. destruct (p !! tm) eqn:E; [|done].
  intros [= <-]. by rewrite lookup_insert.
Qed.

Lemma FuturePool_Set_registered {V} (tm : Z) (v : V) (p : FuturePool.t V) :
  is_Some (p !! tm) → FuturePool.Set_ tm v p = Ok (<[tm := Some v]> p).
Proof. intros [cell E]. unfold FuturePool.Set_. by rewrite E. Qed.



(** ** Aggregator *)

Lemma elem_of_senders_at (tm n : Z) (mails : list Mail) :
  n ∈ senders_at tm mails ↔
  ∃ m, m ∈ mails ∧ time (flag m) = tm ∧ sender (flag m) = n.
Proof.
  unfold senders_at. rewrite elem_of_list_to_set, list_elem_of_fmap. split.
  - intros (m & -> & Hm). apply list_elem_of_filter in Hm as [Ht Hm]. eauto.
  - intros (m & Hm & Ht & <-). exists m. split; [done|].
    by apply list_elem_of_filter.
Qed.

Lemma senders_at_perm (tm : Z) (ms ms' : list Mail) :
  ms ≡ₚ ms' → senders_at tm ms = senders_at tm ms'.
Proof.
  intros Hp. apply set_eq. intros n. rewrite !elem_of_senders_at.
  by setoid_rewrite Hp.
Qed.

Lemma Aggregator_Insert_lookup (m : Mail) (a : Aggregator.t) (tm : Z) :
  Aggregator.Insert m a !! tm =
  (λ p, Aggregator.mkPending (Aggregator.targets p)
          (Aggregator.acked p ∪ senders_at tm [m])) <$> a !! tm.
Proof.
  unfold Aggregator.Insert.
  assert (Hpend : ∀ p : Aggregator.Pending,
            Aggregator.mkPending (Aggregator.targets p) (Aggregator.acked p ∪ ∅) = p).
  { intros [tg ak]. simpl. f_equal. set_solver. }
  destruct (decide (time (flag m) = tm)) as [<-|Hne].
  - destruct (a !! time (flag m)) as [p|] eqn:E.
    + rewrite lookup_insert_eq. simpl. f_equal. f_equal.
      unfold senders_at. rewrite filter_cons_True by done. simpl.
      set_solver.
    + by rewrite E.
  - assert (senders_at tm [m] = ∅) as ->.
    { unfold senders_at. by rewrite filter_cons_False. }
    destruct (a !! time (flag m)) as [p|] eqn:E.
    + rewrite lookup_insert_ne by done.
      destruct (a !! tm) as [q|]; simpl; [by rewrite Hpend|done].
    + destruct (a !! tm) as [q|]; simpl; [by rewrite Hpend|done].
Qed.

Lemma Aggregator_InsertAll_lookup (ms : list Mail) (a : Aggregator.t) (tm : Z) :
  Aggregator.InsertAll ms a !! tm =
  (λ p, Aggregator.mkPending (Aggregator.targets p)
          (Aggregator.acked p ∪ senders_at tm ms)) <$> a !! tm.
Proof.
  revert a. induction ms as [|m ms IH]; intros a.
  - simpl. destruct (a !! tm) as [[tg ak]|]; simpl; [|done].
    do 2 f_equal. unfold senders_at. set_solver.
  - unfold Aggregator.InsertAll in *. simpl. rewrite IH.
    rewrite Aggregator_Insert_lookup.
    destruct (a !! tm) as [[tg ak]|]; simpl; [|done].
    do 2 f_equal. apply set_eq. intros n.
    rewrite !elem_of_union, !elem_of_senders_at.
    setoid_rewrite elem_of_cons. setoid_rewrite elem_of_nil.
    naive_solver.
Qed.

Lemma Aggregator_InsertAll_perm (ms ms' : list Mail) (a : Aggregator.t) :
  ms ≡ₚ ms' → Aggregator.InsertAll ms a = Aggregator.InsertAll ms' a.
Proof.
  intros Hp. apply map_eq. intros tm.
  rewrite !Aggregator_InsertAll_lookup. by rewrite (senders_at_perm tm _ _ Hp).
Qed.

Lemma Aggregator_Success_true (tm : Z) (group : NodeGroup) (a : Aggregator.t) :
  Aggregator.Success tm group a = true ↔
  ∃ p, a !! tm = Some p ∧
       ∀ n, n ∈ group → n ∈ Aggregator.targets p → n ∈ Aggregator.acked p.
Proof.
  unfold Aggregator.Success. destruct (a !! tm) as [p|].
  - rewrite bool_decide_eq_true. split.
    + intros Hs. exists p. split; [done|]. set_solver.
    + intros (q & [= <-] & Hq). set_solver.
  - split; [done|]. by intros (p & ? & _).
Qed.

Lemma Aggregator_Success_pending (tm : Z) (group : NodeGroup) (a : Aggregator.t) :
  Aggregator.Success tm group a = true → is_Some (a !! tm).
Proof. rewrite Aggregator_Success_true. intros (p & -> & _). eauto. Qed.

(** C1. The success predicate of the aggregator is true exactly when the
    time has a pending set and every member of the node group expected for
    the time (a target of the request) has acknowledged, before or among the
    replies inserted since.  So it is false while an acknowledgment of such
    a member is missing and true once the last one has been recorded: the
    insert that turns it true records the one expected member that was
    still missing.  The order in which the replies are inserted changes
    neither the aggregator nor the predicate.  [AggregateSuccess] is this predicate on the
    container's aggregator and the postmaster's group. *)
Theorem Aggregator_success_iff_all_acked
  (a : Aggregator.t) (tm : Z) (group : NodeGroup) (replies : list Mail) :
  (Aggregator.Success tm group (Aggregator.InsertAll replies a) = true ↔
   ∃ p, a !! tm = Some p ∧
        ∀ n, n ∈ group → n ∈ Aggregator.targets p →
             n ∈ Aggregator.acked p ∨
             ∃ m, m ∈ replies ∧ time (flag m) = tm ∧ sender (flag m) = n)
  ∧ (∀ replies', replies ≡ₚ replies' →
       Aggregator.InsertAll replies' a = Aggregator.InsertAll replies a
       ∧ Aggregator.Success tm group (Aggregator.InsertAll replies' a)
         = Aggregator.Success tm group (Aggregator.InsertAll replies a))
  ∧ (∀ m, Aggregator.Success tm group a = false →
       Aggregator.Success tm group (Aggregator.Insert m a) = true →
       time (flag m) = tm
       ∧ ∃ p, a !! tm = Some p
              ∧ sender (flag m) ∈ group
              ∧ sender (flag m) ∈ Aggregator.targets p
              ∧ (sender (flag m) ∉ Aggregator.acked p)
              ∧ ∀ n, n ∈ group → n ∈ Aggregator.targets p →
                     n ≠ sender (flag m) → n ∈ Aggregator.acked p)
  ∧ (∀ pm c, AggregateSuccess pm tm c = true ↔
       ∃ p, aggregator_ c !! tm = Some p ∧
            ∀ n, n ∈ GetNodeGroup pm → n ∈ Aggregator.targets p →
                 n ∈ Aggregator.acked p).
Proof.
  split; [|split; [|split]].
  - rewrite Aggregator_Success_true, Aggregator_InsertAll_lookup. split.
    + intros (q & Hq & Hall). destruct (a !! tm) as [p|]; [|done].
      simpl in Hq. injection Hq as <-. exists p. split; [done|].
      intros n Hg Ht. specialize (Hall n Hg Ht). simpl in Hall.
      apply elem_of_union in Hall as [?|Hs]; [by left|right].
      by apply elem_of_senders_at.
    + intros (p & -> & Hall). simpl. eexists. split; [done|]. simpl.
      intros n Hg Ht. apply elem_of_union.
      destruct (Hall n Hg Ht) as [?|Hs]; [by left|right].
      by apply elem_of_senders_at.
  - intros replies' Hp.
    assert (Aggregator.InsertAll replies' a = Aggregator.InsertAll replies a) as ->
      by (symmetry; by apply Aggregator_InsertAll_perm).
    done.
  - intros m Hbefore Hafter.
    apply Aggregator_Success_true in Hafter as (q & Hq & Hall).
    rewrite Aggregator_Insert_lookup in Hq.
    destruct (a !! tm) as [p|] eqn:Hp; [|done].
    simpl in Hq. injection Hq as <-. simpl in Hall.
    assert (Hnot : ¬ ∀ n, n ∈ group → n ∈ Aggregator.targets p →
                          n ∈ Aggregator.acked p).
    { intros Hacked.
      assert (Aggregator.Success tm group a = true) as Htrue
        by (apply Aggregator_Success_true; eauto).
      by rewrite Htrue in Hbefore. }
    assert (Hnew : ∀ n, n ∈ senders_at tm [m] → time (flag m) = tm ∧ n = sender (flag m)).
    { intros n Hn. apply elem_of_senders_at in Hn as (m' & Hm' & Ht & Hs).
      apply list_elem_of_singleton in Hm' as ->. done. }
    assert (Hacks : ∀ n, n ∈ group → n ∈ Aggregator.targets p →
                         n ∈ Aggregator.acked p
                         ∨ (time (flag m) = tm ∧ n = sender (flag m))).
    { intros n Hg Ht. pose proof (Hall n Hg Ht) as Hu.
      apply elem_of_union in Hu as [?|?]; eauto. }
    assert (Htm : time (flag m) = tm).
    { destruct (decide (time (flag m) = tm)) as [|Hne]; [done|].
      exfalso. apply Hnot. intros n Hg Ht.
      by destruct (Hacks n Hg Ht) as [?|[? _]]. }
    split; [done|]. exists p. split; [done|].
    destruct (decide (sender (flag m) ∈ group)) as [Hg|Hg]; last first.
    { exfalso. apply Hnot. intros n Hn Ht.
      destruct (Hacks n Hn Ht) as [?|[_ ->]]; done. }
    destruct (decide (sender (flag m) ∈ Aggregator.targets p)) as [Ht|Ht]; last first.
    { exfalso. apply Hnot. intros n Hn Hnt.
      destruct (Hacks n Hn Hnt) as [?|[_ ->]]; done. }
    destruct (decide (sender (flag m) ∈ Aggregator.acked p)) as [Ha|Ha].
    { exfalso. apply Hnot. intros n Hn Hnt.
      destruct (Hacks n Hn Hnt) as [?|[_ ->]]; done. }
    repeat split; try done.
    intros n Hn Hnt Hne. destruct (Hacks n Hn Hnt) as [?|[_ ?]]; done.
  - intros pm c. unfold AggregateSuccess. apply Aggregator_Success_true.
Qed.

(** ** Consistency budgets *)

Lemma configure_budgets (k : DelayCall) (c : Container) :
  0 ≤ max_push_delay_ c → 0 ≤ max_pull_delay_ c →
  0 ≤ max_push_delay_ (configure k c) ∧ 0 ≤ max_pull_delay_ (configure k c).
Proof. intros Hpush Hpull. destruct k; simpl; lia. Qed.

Lemma configure_all_budgets (ks : list DelayCall) (c : Container) :
  0 ≤ max_push_delay_ c → 0 ≤ max_pull_delay_ c →
  0 ≤ max_push_delay_ (foldl (λ acc k, configure k acc) c ks)
  ∧ 0 ≤ max_pull_delay_ (foldl (λ acc k, configure k acc) c ks).
Proof.
  revert c. induction ks as [|k ks IH]; intros c Hpush Hpull; simpl; [done|].
  destruct (configure_budgets k c Hpush Hpull). by apply IH.
Qed.

(** C9. [SetMaxDelay] leaves both budgets non-negative; [SetMaxPushDelay]
    and [SetMaxPullDelay] leave the budget they set non-negative and the
    other one as it was; a negative argument stores 0.  After a
    [SetMaxDelay], and from any container whose budgets are non-negative,
    any further calls of the three setters keep both budgets
    non-negative. *)
Theorem SetMaxDelay_budgets_nonneg (c : Container) :
  (∀ push pull,
     0 ≤ max_push_delay_ (SetMaxDelay push pull c)
     ∧ 0 ≤ max_pull_delay_ (SetMaxDelay push pull c)
     ∧ max_push_delay_ (SetMaxDelay push pull c) = (if decide (push < 0) then 0 else push)
     ∧ max_pull_delay_ (SetMaxDelay push pull c) = (if decide (pull < 0) then 0 else pull))
  ∧ (∀ delay,
       0 ≤ max_push_delay_ (SetMaxPushDelay delay c)
       ∧ max_push_delay_ (SetMaxPushDelay delay c) = (if decide (delay < 0) then 0 else delay)
       ∧ max_pull_delay_ (SetMaxPushDelay delay c) = max_pull_delay_ c)
  ∧ (∀ delay,
       0 ≤ max_pull_delay_ (SetMaxPullDelay delay c)
       ∧ max_pull_delay_ (SetMaxPullDelay delay c) = (if decide (delay < 0) then 0 else delay)
       ∧ max_push_delay_ (SetMaxPullDelay delay c) = max_push_delay_ c)
  ∧ (∀ push pull (later : list DelayCall),
       0 ≤ max_push_delay_
             (foldl (λ acc k, configure k acc) (SetMaxDelay push pull c) later)
       ∧ 0 ≤ max_pull_delay_
               (foldl (λ acc k, configure k acc) (SetMaxDelay push pull c) later))
  ∧ (∀ calls : list DelayCall,
       0 ≤ max_push_delay_ c → 0 ≤ max_pull_delay_ c →
       0 ≤ max_push_delay_ (foldl (λ acc k, configure k acc) c calls)
       ∧ 0 ≤ max_pull_delay_ (foldl (λ acc k, configure k acc) c calls)).
Proof.
  split; [|split; [|split; [|split]]].
  - intros push pull. simpl. repeat split; try case_decide; lia.
  - intros delay. simpl. repeat split; try case_decide; lia.
  - intros delay. simpl. repeat split; try case_decide; lia.
  - intros push pull later. apply configure_all_budgets; simpl; lia.
  - intros calls. apply configure_all_budgets.
Qed.

(** ** Notify *)

(** What a successful [Notify] leaves behind. *)
Lemma Notify_Ok (h : Header) (c c' : Container) :
  Notify h c = Ok c' →
  pull_pool_ c' = pull_pool_ c
  ∧ aggregator_ c' = aggregator_ c
  ∧ pull_aggregator_ c' = pull_aggregator_ c
  ∧ mails_received_ c' = mails_received_ c
  ∧ cur_time_ c' = cur_time_ c
  ∧ max_push_delay_ c' = max_push_delay_ c
  ∧ max_pull_delay_ c' = max_pull_delay_ c
  ∧ (∀ tm, tm ≠ time h → push_pool_ c' !! tm = push_pool_ c !! tm)
  ∧ (has_bit (type h) Header_PUSH = true →
       push_pool_ c' !! time h = Some (Some true)).
Proof.
  unfold Notify. destruct (has_bit (type h) Header_PUSH) eqn:Hbit.
  - unfold FuturePool.Set_.
    destruct (push_pool_ c !! time h) as [cell|] eqn:E; simpl; [|done].
    intros [= <-]. simpl. repeat split; try done.
    + intros tm Hne. by rewrite lookup_insert_ne.
    + by rewrite lookup_insert_eq.
  - intros [= <-]. repeat split; done.
Qed.

(** C10. [Notify] writes nothing but the push future pool.  Without the
    PUSH bit the container is returned as it is.  With the PUSH bit the push
    future of the header's time is set to [true], the other push futures
    stay, and a wait on that time is ready with [true]; the set is refused
    with [UnknownTimeError] only for a time with no push future.  The pull
    future pool, both aggregators, the received mails, the clock and the
    budgets are the same after every [Notify]. *)
Theorem Notify_frame (h : Header) (c : Container) :
  (has_bit (type h) Header_PUSH = false → Notify h c = Ok c)
  ∧ (has_bit (type h) Header_PUSH = true → is_Some (push_pool_ c !! time h) →
       Notify h c = Ok (with_push_pool (<[time h := Some true]> (push_pool_ c)) c))
  ∧ (∀ e, Notify h c = Err e →
       e = UnknownTimeError ∧ has_bit (type h) Header_PUSH = true
       ∧ push_pool_ c !! time h = None)
  ∧ (∀ c', Notify h c = Ok c' →
       pull_pool_ c' = pull_pool_ c
       ∧ aggregator_ c' = aggregator_ c
       ∧ pull_aggregator_ c' = pull_aggregator_ c
       ∧ mails_received_ c' = mails_received_ c
       ∧ cur_time_ c' = cur_time_ c
       ∧ max_push_delay_ c' = max_push_delay_ c
       ∧ max_pull_delay_ c' = max_pull_delay_ c
       ∧ (∀ tm, tm ≠ time h → push_pool_ c' !! tm = push_pool_ c !! tm)
       ∧ (has_bit (type h) Header_PUSH = true →
            push_pool_ c' !! time h = Some (Some true)
            ∧ FuturePool.Wait (time h) (push_pool_ c')
              = (FuturePool.Ready true, push_pool_ c'))).
Proof.
  unfold Notify. destruct (has_bit (type h) Header_PUSH) eqn:Hbit.
  - unfold FuturePool.Set_. destruct (push_pool_ c !! time h) as [cell|] eqn:E; simpl.
    + split; [done|]. split; [done|]. split; [done|].
      intros c' [= <-]. simpl. repeat split; try done.
      * intros tm Hne. by rewrite lookup_insert_ne.
      * by rewrite lookup_insert_eq.
      * unfold FuturePool.Wait. by rewrite lookup_insert_eq.
    + split; [done|]. split; [by intros _ [? ?]|]. split; [|done].
      by intros e [= <-].
  - split; [done|]. split; [done|]. split; [done|].
    intros c' [= <-]. repeat split; done.
Qed.

(** ** What a request leaves behind *)

(** What [Push] leaves behind: the clock has ticked, and the push future of
    the new time is registered or nothing else has changed. *)
Lemma Push_state (pm : Postmaster) (send_ok : bool) (ks vs : list Z) (c : Container) :
  let r := Push pm send_ok ks vs c in
  r.1.1 = wrap32 (cur_time_ c + 1)
  ∧ cur_time_ r.2 = wrap32 (cur_time_ c + 1)
  ∧ pull_pool_ r.2 = pull_pool_ c
  ∧ pull_aggregator_ r.2 = pull_aggregator_ c
  ∧ (push_pool_ r.2 = push_pool_ c
     ∨ (push_pool_ c !! r.1.1 = None ∧ push_pool_ r.2 = <[r.1.1 := None]> (push_pool_ c))).
Proof.
  unfold Push, IncrClock, FuturePool.Create. simpl.
  destruct (push_pool_ c !! wrap32 (cur_time_ c + 1)) eqn:E; simpl.
  { repeat split; try done. by left. }
  destruct (within_budget _ _ _); [destruct send_ok|]; simpl;
    repeat split; try done; by (left + right).
Qed.

Lemma Pull_state (pm : Postmaster) (send_ok : bool) (ks : list Z) (c : Container) :
  let r := Pull pm send_ok ks c in
  r.1.1 = wrap32 (cur_time_ c + 1)
  ∧ cur_time_ r.2 = wrap32 (cur_time_ c + 1)
  ∧ push_pool_ r.2 = push_pool_ c
  ∧ ((pull_pool_ r.2 = pull_pool_ c ∧ pull_aggregator_ r.2 = pull_aggregator_ c)
     ∨ (pull_pool_ c !! r.1.1 = None
        ∧ pull_pool_ r.2 = <[r.1.1 := None]> (pull_pool_ c)
        ∧ pull_aggregator_ r.2
          = Aggregator.Register r.1.1 (GetNodeGroup pm) (pull_aggregator_ c))).
Proof.
  unfold Pull, IncrClock, FuturePool.Create. simpl.
  destruct (pull_pool_ c !! wrap32 (cur_time_ c + 1)) eqn:E; simpl.
  { repeat split; try done. by left. }
  destruct (within_budget _ _ _); [destruct send_ok|]; simpl;
    repeat split; try done; by (left + right).
Qed.

(** ** The consistency window *)







(** The outcome of [Push] and [Pull] by the state of the window. *)
Lemma Push_issue (pm : Postmaster) (send_ok : bool) (ks vs : list Z) (c : Container) :
  let t := wrap32 (cur_time_ c + 1) in
  let r := Push pm send_ok ks vs c in
  r.1.1 = t
  ∧ (r.1.2 = Blocked ↔
       push_pool_ c !! t = None
       ∧ within_budget (max_push_delay_ c) (push_pool_ c) t = false)
  ∧ (∀ env, r.1.2 = Sent env →
       push_pool_ c !! t = None
       ∧ within_budget (max_push_delay_ c) (push_pool_ c) t = true
       ∧ env = mkMail (mkHeader Header_PUSH t (my_node pm)) ks vs
       ∧ push_pool_ r.2 = <[t := None]> (push_pool_ c))
  ∧ (∀ e, r.1.2 = Failed e → push_pool_ r.2 = push_pool_ c)
  ∧ (r.1.2 = Blocked → push_pool_ r.2 = <[t := None]> (push_pool_ c)).
Proof.
  unfold Push, IncrClock, FuturePool.Create. simpl.
  destruct (push_pool_ c !! wrap32 (cur_time_ c + 1)) eqn:E; simpl.
  { split; [done|]. split; [|done]. split; [done|]. by intros [? _]. }
  destruct (within_budget (max_push_delay_ c) (push_pool_ c)
              (wrap32 (cur_time_ c + 1))) eqn:Hw;
    [destruct send_ok|]; simpl.
  - split; [done|]. split; [split; [done|by intros [_ ?]]|].
    split; [|done]. by intros env [= <-].
  - split; [done|]. split; [split; [done|by intros [_ ?]]|]. done.
  - split; [done|]. split; [|done]. done.
Qed.

Lemma Pull_issue (pm : Postmaster) (send_ok : bool) (ks : list Z) (c : Container) :
  let t := wrap32 (cur_time_ c + 1) in
  let r := Pull pm send_ok ks c in
  r.1.1 = t
  ∧ (r.1.2 = Blocked ↔
       pull_pool_ c !! t = None
       ∧ within_budget (max_pull_delay_ c) (pull_pool_ c) t = false)
  ∧ (∀ env, r.1.2 = Sent env →
       pull_pool_ c !! t = None
       ∧ within_budget (max_pull_delay_ c) (pull_pool_ c) t = true
       ∧ env = mkMail (mkHeader Header_PULL t (my_node pm)) ks []
       ∧ pull_pool_ r.2 = <[t := None]> (pull_pool_ c)
       ∧ pull_aggregator_ r.2
         = Aggregator.Register t (GetNodeGroup pm) (pull_aggregator_ c))
  ∧ (∀ e, r.1.2 = Failed e →
       pull_pool_ r.2 = pull_pool_ c ∧ pull_aggregator_ r.2 = pull_aggregator_ c)
  ∧ (r.1.2 = Blocked →
       pull_pool_ r.2 = <[t := None]> (pull_pool_ c)
       ∧ pull_aggregator_ r.2
         = Aggregator.Register t (GetNodeGroup pm) (pull_aggregator_ c)).
Proof.
  unfold Pull, IncrClock, FuturePool.Create. simpl.
  destruct (pull_pool_ c !! wrap32 (cur_time_ c + 1)) eqn:E; simpl.
  { split; [done|]. split; [|done]. split; [done|]. by intros [? _]. }
  destruct (within_budget (max_pull_delay_ c) (pull_pool_ c)
              (wrap32 (cur_time_ c + 1))) eqn:Hw;
    [destruct send_ok|]; simpl.
  - split; [done|]. split; [split; [done|by intros [_ ?]]|].
    split; [|done]. by intros env [= <-].
  - split; [done|]. split; [split; [done|by intros [_ ?]]|]. done.
  - split; [done|]. split; [|done]. done.
Qed.

(** When a [Push] or [Pull] is sent and when it fails. *)
Lemma Push_outcome (pm : Postmaster) (send_ok : bool) (ks vs : list Z) (c : Container) :
  let t := wrap32 (cur_time_ c + 1) in
  let r := Push pm send_ok ks vs c in
  (push_pool_ c !! t = None →
   within_budget (max_push_delay_ c) (push_pool_ c) t = true →
   send_ok = true →
   r.1.2 = Sent (mkMail (mkHeader Header_PUSH t (my_node pm)) ks vs))
  ∧ (∀ e, r.1.2 = Failed e ↔
       (is_Some (push_pool_ c !! t) ∧ e = DuplicateTimeError)
       ∨ (push_pool_ c !! t = None
          ∧ within_budget (max_push_delay_ c) (push_pool_ c) t = true
          ∧ send_ok = false ∧ e = SendError)).
Proof.
  unfold Push, IncrClock, FuturePool.Create. simpl.
  destruct (push_pool_ c !! wrap32 (cur_time_ c + 1)) eqn:E; simpl.
  { split; [done|]. intros e. split.
    - intros [= <-]. left. by split.
    - intros [[_ ->]|(? & _)]; done. }
  destruct (within_budget (max_push_delay_ c) (push_pool_ c)
              (wrap32 (cur_time_ c + 1))) eqn:Hw;
    [destruct send_ok|]; simpl.
  - split; [done|]. intros e. split; [done|].
    intros [[[? ?] _]|(_ & _ & ? & _)]; done.
  - split; [done|]. intros e. split.
    + intros [= <-]. right. done.
    + intros [[[? ?] _]|(_ & _ & _ & ->)]; done.
  - split; [done|]. intros e. split; [done|].
    intros [[[? ?] _]|(_ & ? & _)]; done.
Qed.

Lemma Pull_outcome (pm : Postmaster) (send_ok : bool) (ks : list Z) (c : Container) :
  let t := wrap32 (cur_time_ c + 1) in
  let r := Pull pm send_ok ks c in
  (pull_pool_ c !! t = None →
   within_budget (max_pull_delay_ c) (pull_pool_ c) t = true →
   send_ok = true →
   r.1.2 = Sent (mkMail (mkHeader Header_PULL t (my_node pm)) ks []))
  ∧ (∀ e, r.1.2 = Failed e ↔
       (is_Some (pull_pool_ c !! t) ∧ e = DuplicateTimeError)
       ∨ (pull_pool_ c !! t = None
          ∧ within_budget (max_pull_delay_ c) (pull_pool_ c) t = true
          ∧ send_ok = false ∧ e = SendError)).
Proof.
  unfold Pull, IncrClock, FuturePool.Create. simpl.
  destruct (pull_pool_ c !! wrap32 (cur_time_ c + 1)) eqn:E; simpl.
  { split; [done|]. intros e. split.
    - intros [= <-]. left. by split.
    - intros [[_ ->]|(? & _)]; done. }
  destruct (within_budget (max_pull_delay_ c) (pull_pool_ c)
              (wrap32 (cur_time_ c + 1))) eqn:Hw;
    [destruct send_ok|]; simpl.
  - split; [done|]. intros e. split; [done|].
    intros [[[? ?] _]|(_ & _ & ? & _)]; done.
  - split; [done|]. intros e. split.
    + intros [= <-]. right. done.
    + intros [[[? ?] _]|(_ & _ & _ & ->)]; done.
  - split; [done|]. intros e. split; [done|].
    intros [[[? ?] _]|(_ & ? & _)]; done.
Qed.




(** A time the clock has not reached is free in a pool that holds only
    times the clock has handed out. *)
Lemma next_time_fresh (pool : FuturePool.t bool) (c : Container) :
  in_int32 (cur_time_ c) → cur_time_ c < kint32max →
  (∀ tm, is_Some (pool !! tm) → tm ≤ cur_time_ c) →
  pool !! (IncrClock c).1 = None.
Proof.
  intros Hr Hlt Hb. unfold IncrClock. simpl.
  rewrite wrap32_id by (unfold in_int32, kint32min, kint32max in *; lia).
  apply eq_None_not_Some. intros Hs. apply Hb in Hs. lia.
Qed.


(** ** The timestamp of a request *)

(** C7. [Push] and [Pull] of the cache return the logical time the clock
    assigned to the request, without waiting for any reply.  What becomes of
    the request is decided by three things only, the time being new, the
    consistency window and the transport: with a new time, an open window
    and a transport that takes the envelope, the request is sent, and the
    envelope carries the returned time, this node and the caller's keys (and
    values) in order; the call is held exactly when the time is new and the
    window is closed; it fails exactly when the time is taken or the
    transport refuses the envelope.  A request that is sent or held has its
    pending future (and, for a pull, its pending set of receivers)
    registered under the returned time, so a later [Wait] on that time does
    not fail; a request that failed has left nothing registered.  On a
    container whose futures are for times the clock has handed out, the time
    is always new. *)
Theorem Push_Pull_return_timestamp
  (pm : Postmaster) (send_ok : bool) (ks vs : list Z) (opts : SyncOpts) (c : Container) :
  let t := (IncrClock c).1 in
  let r := KVCache_Push pm send_ok ks vs opts c in
  let q := KVCache_Pull pm send_ok ks opts c in
  (r.1.1 = t ∧ Clock r.2 = t ∧ q.1.1 = t ∧ Clock q.2 = t)
  ∧ ((push_pool_ c !! t = None →
      within_budget (max_push_delay_ c) (push_pool_ c) t = true →
      send_ok = true →
      r.1.2 = Sent (mkMail (mkHeader Header_PUSH t (my_node pm)) ks vs))
     ∧ (pull_pool_ c !! t = None →
        within_budget (max_pull_delay_ c) (pull_pool_ c) t = true →
        send_ok = true →
        q.1.2 = Sent (mkMail (mkHeader Header_PULL t (my_node pm)) ks [])))
  ∧ ((r.1.2 = Blocked ↔
        push_pool_ c !! t = None
        ∧ within_budget (max_push_delay_ c) (push_pool_ c) t = false)
     ∧ (q.1.2 = Blocked ↔
          pull_pool_ c !! t = None
          ∧ within_budget (max_pull_delay_ c) (pull_pool_ c) t = false))
  ∧ ((∀ e, r.1.2 = Failed e ↔
        (is_Some (push_pool_ c !! t) ∧ e = DuplicateTimeError)
        ∨ (push_pool_ c !! t = None
           ∧ within_budget (max_push_delay_ c) (push_pool_ c) t = true
           ∧ send_ok = false ∧ e = SendError))
     ∧ (∀ e, q.1.2 = Failed e ↔
          (is_Some (pull_pool_ c !! t) ∧ e = DuplicateTimeError)
          ∨ (pull_pool_ c !! t = None
             ∧ within_budget (max_pull_delay_ c) (pull_pool_ c) t = true
             ∧ send_ok = false ∧ e = SendError)))
  ∧ ((∀ env, r.1.2 = Sent env →
        env = mkMail (mkHeader Header_PUSH t (my_node pm)) ks vs
        ∧ time (flag env) = r.1.1 ∧ keys env = ks ∧ vals env = vs
        ∧ push_pool_ r.2 !! r.1.1 = Some None
        ∧ Wait r.1.1 r.2 = (FuturePool.Blocks, r.2))
     ∧ (∀ env, q.1.2 = Sent env →
          env = mkMail (mkHeader Header_PULL t (my_node pm)) ks []
          ∧ time (flag env) = q.1.1 ∧ keys env = ks
          ∧ pull_pool_ q.2 !! q.1.1 = Some None
          ∧ pull_aggregator_ q.2 !! q.1.1
            = Some (Aggregator.mkPending (GetNodeGroup pm) ∅)
          ∧ ∀ e, (Wait q.1.1 q.2).1 ≠ FuturePool.Fails e))
  ∧ ((r.1.2 = Blocked →
        push_pool_ r.2 !! r.1.1 = Some None
        ∧ Wait r.1.1 r.2 = (FuturePool.Blocks, r.2))
     ∧ (q.1.2 = Blocked →
          pull_pool_ q.2 !! q.1.1 = Some None
          ∧ pull_aggregator_ q.2 !! q.1.1
            = Some (Aggregator.mkPending (GetNodeGroup pm) ∅)
          ∧ ∀ e, (Wait q.1.1 q.2).1 ≠ FuturePool.Fails e))
  ∧ ((∀ e, r.1.2 = Failed e → push_pool_ r.2 = push_pool_ c)
     ∧ (∀ e, q.1.2 = Failed e →
          pull_pool_ q.2 = pull_pool_ c
          ∧ pull_aggregator_ q.2 = pull_aggregator_ c))
  ∧ (in_int32 (cur_time_ c) → cur_time_ c < kint32max →
     ((∀ tm, is_Some (push_pool_ c !! tm) → tm ≤ cur_time_ c) →
      push_pool_ c !! t = None)
     ∧ ((∀ tm, is_Some (pull_pool_ c !! tm) → tm ≤ cur_time_ c) →
        pull_pool_ c !! t = None)).
Proof.
  intros t r q. unfold KVCache_Push, KVCache_Push_blob, KVCache_Pull,
    KVCache_Pull_blob, CBlob in r, q.
  destruct (Push_issue pm send_ok ks vs c) as (Hpt & Hpb & Hps & Hpf & Hpw).
  destruct (Pull_issue pm send_ok ks c) as (Hqt & Hqb & Hqs & Hqf & Hqw).
  destruct (Push_state pm send_ok ks vs c) as (_ & Hpc & _).
  destruct (Pull_state pm send_ok ks c) as (_ & Hqc & _).
  destruct (Push_outcome pm send_ok ks vs c) as (Hpo1 & Hpo2).
  destruct (Pull_outcome pm send_ok ks c) as (Hqo1 & Hqo2).
  fold r in Hpt, Hpb, Hps, Hpf, Hpc, Hpw, Hpo1, Hpo2.
  fold q in Hqt, Hqb, Hqs, Hqf, Hqc, Hqw, Hqo1, Hqo2.
  change (wrap32 (cur_time_ c + 1)) with t
    in Hpt, Hpb, Hps, Hpf, Hpc, Hpw, Hpo1, Hpo2,
       Hqt, Hqb, Hqs, Hqf, Hqc, Hqw, Hqo1, Hqo2.
  assert (Hwaitp : push_pool_ r.2 !! t = Some None →
            Wait t r.2 = (FuturePool.Blocks, r.2)).
  { intros Hcell. unfold Wait, FuturePool.Wait. rewrite Hcell.
    by rewrite with_push_pool_id. }
  assert (Hwaitq : pull_pool_ q.2 !! t = Some None →
            ∀ e, (Wait t q.2).1 ≠ FuturePool.Fails e).
  { intros Hcell e. unfold Wait, FuturePool.Wait. rewrite Hcell.
    destruct (push_pool_ q.2 !! t) as [[b|]|]; simpl; done. }
  split; [done|]. split; [done|]. split; [done|]. split; [done|].
  split; [|split; [|split]].
  - split.
    + intros env Hs. apply Hps in Hs as (_ & _ & -> & Hpool). simpl.
      rewrite Hpt. split; [done|]. split; [done|]. split; [done|].
      split; [done|].
      assert (Hcell : push_pool_ r.2 !! t = Some None).
      { rewrite Hpool. apply lookup_insert_eq. }
      split; [done|]. by apply Hwaitp.
    + intros env Hs. apply Hqs in Hs as (_ & _ & -> & Hpool & Hagg). simpl.
      rewrite Hqt. split; [done|]. split; [done|]. split; [done|].
      assert (Hcell : pull_pool_ q.2 !! t = Some None).
      { rewrite Hpool. apply lookup_insert_eq. }
      split; [done|]. split.
      { rewrite Hagg. unfold Aggregator.Register. apply lookup_insert_eq. }
      by apply Hwaitq.
  - split.
    + intros Hb. rewrite Hpt.
      assert (Hcell : push_pool_ r.2 !! t = Some None).
      { rewrite (Hpw Hb). apply lookup_insert_eq. }
      split; [done|]. by apply Hwaitp.
    + intros Hb. destruct (Hqw Hb) as [Hpool Hagg]. rewrite Hqt.
      assert (Hcell : pull_pool_ q.2 !! t = Some None).
      { rewrite Hpool. apply lookup_insert_eq. }
      split; [done|]. split.
      { rewrite Hagg. unfold Aggregator.Register. apply lookup_insert_eq. }
      by apply Hwaitq.
  - done.
  - intros Hr Hlt. split; intros Hb; by apply next_time_fresh.
Qed.

(** ** Calls of the transport *)

Section ReadAllFrame.

(** [ReadAll] hands the queued mails to the application; the clock, the
    future pools and the pull aggregator are not its business. *)
Hypothesis ReadAll_frame : ∀ c,
  cur_time_ (ReadAll c) = cur_time_ c
  ∧ push_pool_ (ReadAll c) = push_pool_ c
  ∧ pull_pool_ (ReadAll c) = pull_pool_ c
  ∧ pull_aggregator_ (ReadAll c) = pull_aggregator_ c.

(** The three ways through [Accept]: not a reply; a reply that does not
    complete its time; a reply that completes it. *)
Lemma Accept_cases (pm : Postmaster) (mail : Mail) (c c' : Container) (evs : list Event) :
  Accept pm mail c = Ok (c', evs) →
  cur_time_ c' = cur_time_ c ∧ push_pool_ c' = push_pool_ c
  ∧ ((has_bit (type (flag mail)) Header_REPLY = false ∧ evs = []
      ∧ pull_pool_ c' = pull_pool_ c ∧ pull_aggregator_ c' = pull_aggregator_ c)
     ∨ (has_bit (type (flag mail)) Header_REPLY = true
        ∧ Aggregator.Success (time (flag mail)) (GetNodeGroup pm)
            (Aggregator.Insert mail (pull_aggregator_ c)) = false
        ∧ evs = [EvSuccess (time (flag mail)) false]
        ∧ pull_pool_ c' = pull_pool_ c
        ∧ pull_aggregator_ c' = Aggregator.Insert mail (pull_aggregator_ c))
     ∨ (has_bit (type (flag mail)) Header_REPLY = true
        ∧ Aggregator.Success (time (flag mail)) (GetNodeGroup pm)
            (Aggregator.Insert mail (pull_aggregator_ c)) = true
        ∧ evs = [EvSuccess (time (flag mail)) true; EvSet (time (flag mail));
                 EvDelete (time (flag mail))]
        ∧ FuturePool.Set_ (time (flag mail)) true (pull_pool_ c) = Ok (pull_pool_ c')
        ∧ pull_aggregator_ c'
          = Aggregator.Delete (time (flag mail))
              (Aggregator.Insert mail (pull_aggregator_ c)))).
Proof.
  unfold Accept. simpl.
  assert (Hframe : ∀ d : Container,
            cur_time_ (if is_server pm then ReadAll d else d) = cur_time_ d
            ∧ push_pool_ (if is_server pm then ReadAll d else d) = push_pool_ d
            ∧ pull_pool_ (if is_server pm then ReadAll d else d) = pull_pool_ d
            ∧ pull_aggregator_ (if is_server pm then ReadAll d else d)
              = pull_aggregator_ d).
  { intros d. destruct (is_server pm); [apply ReadAll_frame|done]. }
  destruct (has_bit (type (flag mail)) Header_REPLY); simpl.
  - destruct (Aggregator.Success _ _ _) eqn:Hs; simpl.
    + destruct (FuturePool.Set_ _ _ _) as [pool|e] eqn:Hset; simpl; [|done].
      intros [= <- <-]. destruct (Hframe
        (with_pull_aggregator
           (Aggregator.Delete (time (flag mail))
              (Aggregator.Insert mail (pull_aggregator_ c)))
           (with_pull_pool pool
              (with_mails_received (mails_received_ c ++ [mail]) c))))
        as (-> & -> & -> & ->). simpl.
      split; [done|]. split; [done|]. right; right. done.
    + intros [= <- <-]. destruct (Hframe
        (with_pull_aggregator (Aggregator.Insert mail (pull_aggregator_ c))
           (with_mails_received (mails_received_ c ++ [mail]) c)))
        as (-> & -> & -> & ->). simpl.
      split; [done|]. split; [done|]. right; left. done.
  - intros [= <- <-]. destruct (Hframe
      (with_mails_received (mails_received_ c ++ [mail]) c))
      as (-> & -> & -> & ->). simpl.
    split; [done|]. split; [done|]. left. done.
Qed.

(** ** The logical clock over a run *)

Lemma issued_times_app (e1 e2 : list Event) :
  issued_times (e1 ++ e2) = issued_times e1 ++ issued_times e2.
Proof. apply omap_app. Qed.

(** A call either leaves the clock alone and takes no time, or takes the
    next time. *)
Lemma step_clock (pm : Postmaster) (k : Call) (c c' : Container) (evs : list Event) :
  step pm k c = Ok (c', evs) →
  (issued_times evs = [] ∧ cur_time_ c' = cur_time_ c)
  ∨ (issued_times evs = [wrap32 (cur_time_ c + 1)]
     ∧ cur_time_ c' = wrap32 (cur_time_ c + 1)).
Proof.
  destruct k as [ok ks vs|ok ks| |k|mail|h]; simpl.
  - intros [= <- <-]. right.
    destruct (Push_state pm ok ks vs c) as (-> & -> & _). done.
  - intros [= <- <-]. right.
    destruct (Pull_state pm ok ks c) as (-> & -> & _). done.
  - intros [= <- <-]. right. done.
  - intros [= <- <-]. left. by destruct k.
  - intros Ha. left. apply Accept_cases in Ha as (-> & _ & Hc).
    split; [|done].
    destruct Hc as [(_ & -> & _)|[(_ & _ & -> & _)|(_ & _ & -> & _)]]; done.
  - destruct (Notify h c) as [d|e] eqn:Hn; simpl; [|done].
    intros [= <- <-]. left. split; [done|].
    by destruct (Notify_Ok h c d Hn) as (_ & _ & _ & _ & -> & _).
Qed.

Lemma run_clock (ks : list (Postmaster * Call)) (c c' : Container) (evs : list Event) :
  in_int32 (cur_time_ c) →
  cur_time_ c + Z.of_nat (length ks) ≤ kint32max →
  run ks c = Ok (c', evs) →
  cur_time_ c ≤ cur_time_ c' ≤ cur_time_ c + Z.of_nat (length ks)
  ∧ Forall (λ t, cur_time_ c < t ≤ cur_time_ c') (issued_times evs)
  ∧ StronglySorted Z.lt (issued_times evs).
Proof.
  revert c c' evs. induction ks as [|[pm k] ks IH]; intros c c' evs Hr Hb; simpl.
  - intros [= <- <-]. simpl. split; [lia|]. split; constructor.
  - destruct (step pm k c) as [[c1 e1]|e] eqn:Hs; simpl; [|done].
    destruct (run ks c1) as [[c2 e2]|e] eqn:Hrun; simpl; [|done].
    intros [= <- <-]. simpl in Hb.
    assert (Hw : wrap32 (cur_time_ c + 1) = cur_time_ c + 1).
    { apply wrap32_id. unfold in_int32, kint32min, kint32max in *. lia. }
    apply step_clock in Hs. rewrite Hw in Hs.
    assert (Hc1 : cur_time_ c ≤ cur_time_ c1 ≤ cur_time_ c + 1) by (destruct Hs as [[_ ->]|[_ ->]]; lia).
    destruct (IH c1 c2 e2) as (Hle & Hall & Hsort); [| |done|].
    { unfold in_int32, kint32min, kint32max in *. lia. }
    { lia. }
    split; [lia|]. rewrite issued_times_app.
    assert (Hall' : Forall (λ t, cur_time_ c < t ≤ cur_time_ c2) (issued_times e2)).
    { eapply Forall_impl; [exact Hall|]. simpl. intros t Ht. lia. }
    destruct Hs as [[-> Hcur]|[-> Hcur]]; simpl.
    + split; [done|done].
    + split.
      * constructor; [lia|done].
      * constructor; [done|]. eapply Forall_impl; [exact Hall|].
        simpl. intros t Ht. lia.
Qed.

Lemma StronglySorted_lt_NoDup (l : list Z) : StronglySorted Z.lt l → NoDup l.
Proof.
  induction 1 as [|x l Hs IH Hall]; constructor; [|done].
  intros Hin. rewrite Forall_forall in Hall. specialize (Hall x Hin). lia.
Qed.

(** Calls that take a time never fail. *)
Lemma run_clock_calls (ks : list (Postmaster * Call)) (c : Container) :
  Forall (λ pk, clock_call pk.2) ks →
  ∃ c' evs, run ks c = Ok (c', evs) ∧ length (issued_times evs) = length ks.
Proof.
  revert c. induction ks as [|[pm k] ks IH]; intros c Hall; simpl.
  - by exists c, [].
  - apply Forall_cons in Hall as [Hk Hall]. simpl in Hk.
    destruct k as [ok kk vs|ok kk| |k|mail|h]; try done; simpl.
    + destruct (IH (Push pm ok kk vs c).2 Hall) as (c' & evs & -> & Hlen).
      simpl. eexists _, _. split; [done|]. simpl. by rewrite Hlen.
    + destruct (IH (Pull pm ok kk c).2 Hall) as (c' & evs & -> & Hlen).
      simpl. eexists _, _. split; [done|]. simpl. by rewrite Hlen.
    + destruct (IH (IncrClock c).2 Hall) as (c' & evs & Hrun & Hlen).
      simpl in Hrun. rewrite Hrun. simpl.
      eexists _, _. split; [done|]. simpl. by rewrite Hlen.
Qed.

(** C3. In a run of a container whose 32-bit clock does not overflow, the
    logical times handed out, to [Push], to [Pull] and by [IncrClock], are
    strictly increasing in the order of the calls, no time is handed out
    twice, and each is greater than the clock at the start; a value returned
    by [IncrClock] is therefore greater than every time issued before it.
    A sequence of [Push], [Pull] and [IncrClock] calls always runs to the
    end and hands out one time per call. *)
Theorem logical_times_strictly_increasing
  (ks : list (Postmaster * Call)) (c : Container) :
  in_int32 (cur_time_ c) →
  cur_time_ c + Z.of_nat (length ks) ≤ kint32max →
  (∀ c' evs, run ks c = Ok (c', evs) →
     StronglySorted Z.lt (issued_times evs)
     ∧ NoDup (issued_times evs)
     ∧ Forall (λ t, Clock c < t ≤ Clock c') (issued_times evs))
  ∧ (Forall (λ pk, clock_call pk.2) ks →
     ∃ c' evs, run ks c = Ok (c', evs)
               ∧ length (issued_times evs) = length ks)
  ∧ (Clock c < kint32max →
     (IncrClock c).1 = Clock c + 1 ∧ Clock (IncrClock c).2 = (IncrClock c).1).
Proof.
  intros Hr Hb. split; [|split].
  - intros c' evs Hrun.
    destruct (run_clock ks c c' evs Hr Hb Hrun) as (_ & Hall & Hsort).
    split; [done|]. split; [by apply StronglySorted_lt_NoDup|done].
  - apply run_clock_calls.
  - unfold IncrClock, Clock. simpl. intros Hlt. split; [|done].
    apply wrap32_id. unfold in_int32, kint32min, kint32max in *. lia.
Qed.

(** ** Waiting *)

(** A call registers a future only for the time it takes. *)
Lemma step_pools (pm : Postmaster) (k : Call) (c c' : Container) (evs : list Event) (tm : Z) :
  step pm k c = Ok (c', evs) →
  tm ∉ issued_times evs →
  (push_pool_ c !! tm = None → push_pool_ c' !! tm = None)
  ∧ (pull_pool_ c !! tm = None → pull_pool_ c' !! tm = None).
Proof.
  destruct k as [ok ks vs|ok ks| |k|mail|h]; simpl.
  - intros [= <- <-] Hni. simpl in Hni. apply not_elem_of_cons in Hni as [Hne _].
    destruct (Push_state pm ok ks vs c) as (_ & _ & -> & _ & [->|[_ ->]]);
      [done|]. split; [|done]. intros Hn. by rewrite lookup_insert_ne.
  - intros [= <- <-] Hni. simpl in Hni. apply not_elem_of_cons in Hni as [Hne _].
    destruct (Pull_state pm ok ks c) as (_ & _ & -> & [[-> _]|(_ & -> & _)]);
      [done|]. split; [done|]. intros Hn. by rewrite lookup_insert_ne.
  - by intros [= <- <-] _.
  - intros [= <- <-] _. by destruct k.
  - intros Ha _. apply Accept_cases in Ha as (_ & -> & Hc). split; [done|].
    destruct Hc as [(_ & _ & -> & _)|[(_ & _ & _ & -> & _)|(_ & _ & _ & Hset & _)]];
      [done|done|].
    intros Hn. rewrite (FuturePool_Set_lookup _ _ _ _ tm Hset).
    case_decide as Heq; [|done]. subst tm.
    unfold FuturePool.Set_ in Hset. by rewrite Hn in Hset.
  - destruct (Notify h c) as [d|e] eqn:Hn; simpl; [|done].
    intros [= <- <-] _. unfold Notify in Hn.
    destruct (has_bit (type h) Header_PUSH); [|by injection Hn as <-].
    destruct (FuturePool.Set_ (time h) true (push_pool_ c)) as [pool|] eqn:Hset;
      simpl in Hn; [|done].
    injection Hn as <-. simpl. split; [|done].
    intros Hnone. rewrite (FuturePool_Set_lookup _ _ _ _ tm Hset).
    case_decide as Heq; [|done]. subst tm.
    unfold FuturePool.Set_ in Hset. by rewrite Hnone in Hset.
Qed.

Lemma run_pools (ks : list (Postmaster * Call)) (c c' : Container) (evs : list Event) (tm : Z) :
  run ks c = Ok (c', evs) →
  tm ∉ issued_times evs →
  push_pool_ c !! tm = None → pull_pool_ c !! tm = None →
  push_pool_ c' !! tm = None ∧ pull_pool_ c' !! tm = None.
Proof.
  revert c c' evs. induction ks as [|[pm k] ks IH]; intros c c' evs; simpl.
  - by intros [= <- <-].
  - destruct (step pm k c) as [[c1 e1]|e] eqn:Hs; simpl; [|done].
    destruct (run ks c1) as [[c2 e2]|e] eqn:Hrun; simpl; [|done].
    intros [= <- <-]. rewrite issued_times_app, not_elem_of_app.
    intros [Hn1 Hn2] Hpush Hpull.
    destruct (step_pools pm k c c1 e1 tm Hs Hn1) as [Hp1 Hp2].
    eapply IH; eauto.
Qed.

Lemma Wait_unknown (tm : Z) (c : Container) :
  push_pool_ c !! tm = None → pull_pool_ c !! tm = None →
  Wait tm c = (FuturePool.Fails UnknownTimeError, c).
Proof.
  intros Hpush Hpull. unfold Wait, FuturePool.Wait. rewrite Hpush, Hpull.
  by rewrite with_pull_pool_id.
Qed.

Lemma Wait_ready (tm : Z) (r : bool) (c : Container) :
  push_pool_ c !! tm = Some (Some r)
  ∨ (push_pool_ c !! tm = None ∧ pull_pool_ c !! tm = Some (Some r)) →
  Wait tm c = (FuturePool.Ready r, c).
Proof.
  unfold Wait, FuturePool.Wait. intros [->|[-> ->]].
  - by rewrite with_push_pool_id.
  - by rewrite with_pull_pool_id.
Qed.

(** C4. [Wait] on a time that has no future, as is the case for every time
    the run of the container never handed out, fails with
    [UnknownTimeError]; it fails in no other case.  [Wait] on a time whose
    future is satisfied is ready with the stored result and leaves the
    container as it is, so that it can be repeated with the same answer;
    that is the state after [Notify] completed a push and after [Accept]
    completed a pull. *)
Theorem Wait_unknown_fails_completed_ready
  (ks : list (Postmaster * Call)) (c : Container) (tm : Z) :
  (∀ c' evs, push_pool_ c !! tm = None → pull_pool_ c !! tm = None →
     run ks c = Ok (c', evs) → tm ∉ issued_times evs →
     Wait tm c' = (FuturePool.Fails UnknownTimeError, c'))
  ∧ (∀ e c', Wait tm c = (FuturePool.Fails e, c') →
       e = UnknownTimeError ∧ c' = c
       ∧ push_pool_ c !! tm = None ∧ pull_pool_ c !! tm = None)
  ∧ (∀ r, push_pool_ c !! tm = Some (Some r)
          ∨ (push_pool_ c !! tm = None ∧ pull_pool_ c !! tm = Some (Some r)) →
       Wait tm c = (FuturePool.Ready r, c)
       ∧ Wait tm (Wait tm c).2 = (FuturePool.Ready r, c))
  ∧ (∀ h c', has_bit (type h) Header_PUSH = true → Notify h c = Ok c' →
       Wait (time h) c' = (FuturePool.Ready true, c'))
  ∧ (∀ pm mail c' evs, Accept pm mail c = Ok (c', evs) → EvSet tm ∈ evs →
       push_pool_ c !! tm = None →
       Wait tm c' = (FuturePool.Ready true, c')).
Proof.
  split; [|split; [|split; [|split]]].
  - intros c' evs Hpush Hpull Hrun Hni.
    destruct (run_pools ks c c' evs tm Hrun Hni Hpush Hpull).
    by apply Wait_unknown.
  - intros e c'. unfold Wait, FuturePool.Wait.
    destruct (push_pool_ c !! tm) as [[r|]|] eqn:Hpush; [done|done|].
    destruct (pull_pool_ c !! tm) as [[r|]|] eqn:Hpull; [done|done|].
    rewrite with_pull_pool_id. by intros [= <- <-].
  - intros r Hr. rewrite (Wait_ready tm r c Hr). simpl.
    split; [done|]. by apply Wait_ready.
  - intros h c' Hbit Hn.
    destruct (Notify_Ok h c c' Hn) as (_ & _ & _ & _ & _ & _ & _ & _ & Hset).
    apply Wait_ready. left. by apply Hset.
  - intros pm mail c' evs Ha Hin Hpush.
    apply Accept_cases in Ha as (_ & Hpp & Hc). apply Wait_ready. right.
    rewrite Hpp. split; [done|].
    destruct Hc as [(_ & -> & _)|[(_ & _ & -> & _)|(_ & _ & -> & Hset & _)]].
    + by apply elem_of_nil in Hin.
    + apply list_elem_of_singleton in Hin. done.
    + assert (tm = time (flag mail)) as ->.
      { rewrite !elem_of_cons in Hin. rewrite elem_of_nil in Hin.
        destruct Hin as [?|[Heq|[?|[]]]]; try done. by injection Heq. }
      rewrite (FuturePool_Set_lookup _ _ _ _ _ Hset). by rewrite decide_True.
Qed.

(** ** Replies *)

Lemma Aggregator_Insert_dropped (mail : Mail) (a : Aggregator.t) :
  a !! time (flag mail) = None → Aggregator.Insert mail a = a.
Proof. intros E. unfold Aggregator.Insert. by rewrite E. Qed.

Lemma Aggregator_Success_not_pending (tm : Z) (group : NodeGroup) (a : Aggregator.t) :
  a !! tm = None → Aggregator.Success tm group a = false.
Proof. intros E. unfold Aggregator.Success. by rewrite E. Qed.

(** A reply touches the pull future and the pending set of its own time
    only. *)
Lemma Accept_other_times (pm : Postmaster) (mail : Mail) (c c' : Container)
  (evs : list Event) (tm : Z) :
  Accept pm mail c = Ok (c', evs) → tm ≠ time (flag mail) →
  pull_pool_ c' !! tm = pull_pool_ c !! tm
  ∧ pull_aggregator_ c' !! tm = pull_aggregator_ c !! tm.
Proof.
  intros Ha Hne. apply Accept_cases in Ha as (_ & _ & Hc).
  assert (Hins : Aggregator.Insert mail (pull_aggregator_ c) !! tm
                 = pull_aggregator_ c !! tm).
  { unfold Aggregator.Insert.
    destruct (pull_aggregator_ c !! time (flag mail)); [|done].
    by rewrite lookup_insert_ne. }
  destruct Hc as [(_ & _ & -> & ->)|[(_ & _ & _ & -> & ->)|(_ & _ & _ & Hset & ->)]];
    [done|done|].
  rewrite (FuturePool_Set_lookup _ _ _ _ tm Hset), decide_False by done.
  unfold Aggregator.Delete. by rewrite lookup_delete_ne.
Qed.

(** C5. A reply for a time with no pending set in the pull aggregator is
    accepted without error: nothing is inserted, the aggregation does not
    succeed, no future is set and nothing is deleted.  The pull futures and
    the pending sets of all times, the push futures and the clock are the
    same after it; on a node that is not a server the container differs
    only by the mail added to the received queue. *)
Theorem Accept_late_reply_dropped (pm : Postmaster) (mail : Mail) (c : Container) :
  has_bit (type (flag mail)) Header_REPLY = true →
  pull_aggregator_ c !! time (flag mail) = None →
  ∃ c', Accept pm mail c = Ok (c', [EvSuccess (time (flag mail)) false])
        ∧ pull_pool_ c' = pull_pool_ c
        ∧ pull_aggregator_ c' = pull_aggregator_ c
        ∧ push_pool_ c' = push_pool_ c
        ∧ cur_time_ c' = cur_time_ c
        ∧ (is_server pm = false →
           c' = with_mails_received (mails_received_ c ++ [mail]) c).
Proof.
  intros Hbit Hnone. unfold Accept. rewrite Hbit. simpl.
  rewrite (Aggregator_Insert_dropped mail (pull_aggregator_ c) Hnone).
  rewrite (Aggregator_Success_not_pending _ _ _ Hnone). simpl.
  eexists. split; [done|].
  assert (Hid : with_pull_aggregator (pull_aggregator_ c)
                  (with_mails_received (mails_received_ c ++ [mail]) c)
                = with_mails_received (mails_received_ c ++ [mail]) c)
    by (by destruct c).
  rewrite Hid. destruct (is_server pm).
  - destruct (ReadAll_frame (with_mails_received (mails_received_ c ++ [mail]) c))
      as (-> & -> & -> & ->). done.
  - done.
Qed.

(** ** Completion of a pull *)

Lemma occurrences_app (e : Event) (e1 e2 : list Event) :
  occurrences e (e1 ++ e2) = (occurrences e e1 + occurrences e e2)%nat.
Proof. unfold occurrences. by rewrite filter_app, length_app. Qed.

Ltac count_events :=
  unfold occurrences; rewrite ?filter_cons, ?filter_nil;
  repeat (case_decide; simplify_eq; simpl); try done; try lia.

Lemma step_call_events (pm : Postmaster) (k : Call) (c c' : Container) (evs : list Event) :
  step pm k c = Ok (c', evs) → call_events evs.
Proof.
  unfold call_events. destruct k as [ok ks vs|ok ks| |k|mail|h]; simpl.
  - intros [= <- <-]. right; left. eauto.
  - intros [= <- <-]. right; left. eauto.
  - intros [= <- <-]. right; left. eauto.
  - intros [= <- <-]. by left.
  - intros Ha. apply Accept_cases in Ha as (_ & _ & Hc).
    destruct Hc as [(_ & -> & _)|[(_ & _ & -> & _)|(_ & _ & -> & _)]].
    + by left.
    + right; right; left. eauto.
    + right; right; right. eauto.
  - destruct (Notify h c) as [d|e]; simpl; [|done]. intros [= <- <-]. by left.
Qed.

Lemma step_pending_bounded (pm : Postmaster) (k : Call) (c c' : Container) (evs : list Event) :
  in_int32 (cur_time_ c) → cur_time_ c < kint32max →
  pending_bounded c →
  step pm k c = Ok (c', evs) →
  pending_bounded c'.
Proof.
  intros Hr Hlt Hb Hs. unfold pending_bounded in *.
  assert (Hw : wrap32 (cur_time_ c + 1) = cur_time_ c + 1).
  { apply wrap32_id. unfold in_int32, kint32min, kint32max in *. lia. }
  destruct k as [ok ks vs|ok ks| |k|mail|h]; simpl in Hs.
  - injection Hs as <- <-.
    destruct (Push_state pm ok ks vs c) as (_ & -> & _ & -> & _).
    intros tm Htm. specialize (Hb tm Htm). lia.
  - injection Hs as <- <-.
    destruct (Pull_state pm ok ks c) as (Ht & -> & _ & [[_ ->]|(_ & _ & ->)]).
    + intros tm Htm. specialize (Hb tm Htm). lia.
    + rewrite Ht, Hw. unfold Aggregator.Register. intros tm.
      rewrite lookup_insert. case_decide as Heq; [lia|].
      intros Htm. specialize (Hb tm Htm). lia.
  - injection Hs as <- <-. simpl. intros tm Htm. specialize (Hb tm Htm). lia.
  - injection Hs as <- <-. by destruct k.
  - apply Accept_cases in Hs as (-> & _ & Hc).
    assert (Hins : ∀ tm, is_Some (Aggregator.Insert mail (pull_aggregator_ c) !! tm) →
                         is_Some (pull_aggregator_ c !! tm)).
    { intros tm. rewrite Aggregator_Insert_lookup, fmap_is_Some. done. }
    destruct Hc as [(_ & _ & _ & ->)|[(_ & _ & _ & _ & ->)|(_ & _ & _ & _ & ->)]].
    + done.
    + intros tm Htm. apply Hb. by apply Hins.
    + intros tm. unfold Aggregator.Delete. rewrite lookup_delete.
      case_decide; [by intros [? ?]|]. intros Htm. apply Hb. by apply Hins.
  - destruct (Notify h c) as [d|e] eqn:Hn; simpl in Hs; [|done].
    injection Hs as <- <-.
    destruct (Notify_Ok h c d Hn) as (_ & _ & -> & _ & -> & _). done.
Qed.

(** Once the pending set of a time the clock has passed is gone, no call
    brings it back, and no call deletes it or sees it succeed again. *)
Lemma step_released (pm : Postmaster) (k : Call) (c c' : Container)
  (evs : list Event) (tm : Z) :
  in_int32 (cur_time_ c) → cur_time_ c < kint32max →
  pull_aggregator_ c !! tm = None → tm ≤ cur_time_ c →
  step pm k c = Ok (c', evs) →
  pull_aggregator_ c' !! tm = None
  ∧ occurrences (EvDelete tm) evs = 0%nat
  ∧ occurrences (EvSuccess tm true) evs = 0%nat.
Proof.
  intros Hr Hlt Hnone Hle Hs.
  assert (Hw : wrap32 (cur_time_ c + 1) = cur_time_ c + 1).
  { apply wrap32_id. unfold in_int32, kint32min, kint32max in *. lia. }
  destruct k as [ok ks vs|ok ks| |k|mail|h]; simpl in Hs.
  - injection Hs as <- <-.
    destruct (Push_state pm ok ks vs c) as (_ & _ & _ & -> & _).
    split; [done|]. split; count_events.
  - injection Hs as <- <-.
    destruct (Pull_state pm ok ks c) as (Ht & _ & _ & [[_ ->]|(_ & _ & ->)]).
    + split; [done|]. split; count_events.
    + split; [|split; count_events].
      unfold Aggregator.Register. rewrite Ht, Hw, lookup_insert_ne by lia. done.
  - injection Hs as <- <-. simpl. split; [done|]. split; count_events.
  - injection Hs as <- <-. split; [by destruct k|]. split; count_events.
  - apply Accept_cases in Hs as (_ & _ & Hc).
    assert (Hins : Aggregator.Insert mail (pull_aggregator_ c) !! tm = None).
    { by rewrite Aggregator_Insert_lookup, Hnone. }
    destruct Hc as [(_ & -> & _ & ->)|[(_ & _ & -> & _ & ->)|(_ & Hsucc & -> & _ & ->)]].
    + split; [done|]. split; count_events.
    + split; [done|]. split; count_events.
    + apply Aggregator_Success_pending in Hsucc.
      assert (time (flag mail) ≠ tm).
      { intros Heq. rewrite Heq, Hins in Hsucc. by destruct Hsucc. }
      split; [|split; count_events].
      unfold Aggregator.Delete. by rewrite lookup_delete_ne.
  - destruct (Notify h c) as [d|e] eqn:Hn; simpl in Hs; [|done].
    injection Hs as <- <-.
    destruct (Notify_Ok h c d Hn) as (_ & _ & -> & _).
    split; [done|]. split; count_events.
Qed.

(** A call deletes the pending set of a time as often as it sees the
    aggregation of that time succeed, at most once, and only a set that was
    there; it is gone afterwards. *)
Lemma step_delete (pm : Postmaster) (k : Call) (c c' : Container)
  (evs : list Event) (tm : Z) :
  step pm k c = Ok (c', evs) →
  occurrences (EvDelete tm) evs = occurrences (EvSuccess tm true) evs
  ∧ (occurrences (EvDelete tm) evs = 0%nat
     ∨ (occurrences (EvDelete tm) evs = 1%nat
        ∧ is_Some (pull_aggregator_ c !! tm)
        ∧ pull_aggregator_ c' !! tm = None)).
Proof.
  intros Hs. destruct k as [ok ks vs|ok ks| |k|mail|h]; simpl in Hs.
  - injection Hs as <- <-. split; [|left]; count_events.
  - injection Hs as <- <-. split; [|left]; count_events.
  - injection Hs as <- <-. split; [|left]; count_events.
  - injection Hs as <- <-. split; [|left]; count_events.
  - apply Accept_cases in Hs as (_ & _ & Hc).
    destruct Hc as [(_ & -> & _)|[(_ & _ & -> & _)|(_ & Hsucc & -> & _ & ->)]].
    + split; [|left]; count_events.
    + split; [|left]; count_events.
    + split; [count_events|].
      destruct (decide (time (flag mail) = tm)) as [<-|Hne].
      * right. split; [count_events|].
        apply Aggregator_Success_pending in Hsucc.
        rewrite Aggregator_Insert_lookup, fmap_is_Some in Hsucc.
        split; [done|]. unfold Aggregator.Delete. by rewrite lookup_delete_eq.
      * left. count_events.
  - destruct (Notify h c) as [d|e] eqn:Hn; simpl in Hs; [|done].
    injection Hs as <- <-. split; [|left]; count_events.
Qed.

Lemma step_range (pm : Postmaster) (k : Call) (c c' : Container) (evs : list Event) :
  in_int32 (cur_time_ c) → cur_time_ c < kint32max →
  step pm k c = Ok (c', evs) →
  in_int32 (cur_time_ c') ∧ cur_time_ c ≤ cur_time_ c' ≤ cur_time_ c + 1.
Proof.
  intros Hr Hlt Hs.
  assert (Hw : wrap32 (cur_time_ c + 1) = cur_time_ c + 1).
  { apply wrap32_id. unfold in_int32, kint32min, kint32max in *. lia. }
  apply step_clock in Hs. rewrite Hw in Hs.
  unfold in_int32, kint32min, kint32max in *.
  destruct Hs as [[_ ->]|[_ ->]]; lia.
Qed.

Lemma run_released (ks : list (Postmaster * Call)) (c c' : Container)
  (evs : list Event) (tm : Z) :
  in_int32 (cur_time_ c) →
  cur_time_ c + Z.of_nat (length ks) ≤ kint32max →
  pull_aggregator_ c !! tm = None → tm ≤ cur_time_ c →
  run ks c = Ok (c', evs) →
  pull_aggregator_ c' !! tm = None
  ∧ occurrences (EvDelete tm) evs = 0%nat
  ∧ occurrences (EvSuccess tm true) evs = 0%nat.
Proof.
  revert c c' evs. induction ks as [|[pm k] ks IH]; intros c c' evs Hr Hb Hnone Hle; simpl.
  - intros [= <- <-]. done.
  - destruct (step pm k c) as [[c1 e1]|e] eqn:Hs; simpl; [|done].
    destruct (run ks c1) as [[c2 e2]|e] eqn:Hrun; simpl; [|done].
    intros [= <- <-]. simpl in Hb.
    assert (Hlt : cur_time_ c < kint32max) by lia.
    destruct (step_range pm k c c1 e1 Hr Hlt Hs) as [Hr1 Hc1].
    destruct (step_released pm k c c1 e1 tm Hr Hlt Hnone Hle Hs) as (Hn1 & Hd1 & Hs1).
    destruct (IH c1 c2 e2) as (Hn2 & Hd2 & Hs2); [done|lia|done|lia|done|].
    rewrite !occurrences_app, Hd1, Hd2, Hs1, Hs2. done.
Qed.

Lemma run_delete (ks : list (Postmaster * Call)) (c c' : Container)
  (evs : list Event) (tm : Z) :
  in_int32 (cur_time_ c) →
  cur_time_ c + Z.of_nat (length ks) ≤ kint32max →
  pending_bounded c →
  run ks c = Ok (c', evs) →
  occurrences (EvDelete tm) evs = occurrences (EvSuccess tm true) evs
  ∧ (occurrences (EvDelete tm) evs = 0%nat
     ∨ (occurrences (EvDelete tm) evs = 1%nat ∧ pull_aggregator_ c' !! tm = None)).
Proof.
  revert c c' evs. induction ks as [|[pm k] ks IH]; intros c c' evs Hr Hb Hpb; simpl.
  - intros [= <- <-]. split; [done|by left].
  - destruct (step pm k c) as [[c1 e1]|e] eqn:Hs; simpl; [|done].
    destruct (run ks c1) as [[c2 e2]|e] eqn:Hrun; simpl; [|done].
    intros [= <- <-]. simpl in Hb.
    assert (Hlt : cur_time_ c < kint32max) by lia.
    destruct (step_range pm k c c1 e1 Hr Hlt Hs) as [Hr1 Hc1].
    pose proof (step_pending_bounded pm k c c1 e1 Hr Hlt Hpb Hs) as Hpb1.
    destruct (step_delete pm k c c1 e1 tm Hs) as [Heq1 Hcase].
    rewrite !occurrences_app.
    destruct Hcase as [Hz|(Hone & Hwas & Hgone)].
    + destruct (IH c1 c2 e2) as [Heq2 Hcase2]; [done|lia|done|done|].
      split; [lia|].
      destruct Hcase2 as [Hz2|[Hone2 Hgone2]]; [left; lia|right; split; [lia|done]].
    + destruct (run_released ks c1 c2 e2 tm) as (Hn2 & Hd2 & Hs2);
        [done|lia|done| |done|].
      { specialize (Hpb tm Hwas). lia. }
      split; [lia|]. right. split; [lia|done].
Qed.

Lemma run_call_events (ks : list (Postmaster * Call)) (c c' : Container) (evs : list Event) :
  run ks c = Ok (c', evs) →
  ∃ blocks, evs = concat blocks ∧ Forall call_events blocks
            ∧ length blocks = length ks.
Proof.
  revert c c' evs. induction ks as [|[pm k] ks IH]; intros c c' evs; simpl.
  - intros [= <- <-]. by exists [].
  - destruct (step pm k c) as [[c1 e1]|e] eqn:Hs; simpl; [|done].
    destruct (run ks c1) as [[c2 e2]|e] eqn:Hrun; simpl; [|done].
    intros [= <- <-].
    destruct (IH c1 c2 e2 Hrun) as (blocks & -> & Hall & Hlen).
    exists (e1 :: blocks). split; [done|]. split; [|by simpl; rewrite Hlen].
    constructor; [|done]. by eapply step_call_events.
Qed.

(** [Accept] does not fail on a container whose pending sets all have
    their pull future. *)
Lemma Accept_total (pm : Postmaster) (mail : Mail) (c : Container) :
  pull_registered c → ∃ c' evs, Accept pm mail c = Ok (c', evs).
Proof.
  intros Hreg. unfold Accept. simpl.
  destruct (has_bit (type (flag mail)) Header_REPLY); simpl; [|by eexists _, _].
  destruct (Aggregator.Success _ _ _) eqn:Hsucc; simpl; [|by eexists _, _].
  apply Aggregator_Success_pending in Hsucc.
  rewrite Aggregator_Insert_lookup, fmap_is_Some in Hsucc.
  rewrite (FuturePool_Set_registered _ _ _ (Hreg _ Hsucc)). simpl.
  by eexists _, _.
Qed.

Lemma step_pull_registered (pm : Postmaster) (k : Call) (c c' : Container) (evs : list Event) :
  pull_registered c → step pm k c = Ok (c', evs) → pull_registered c'.
Proof.
  intros Hreg Hs. unfold pull_registered in *.
  destruct k as [ok ks vs|ok ks| |k|mail|h]; simpl in Hs.
  - injection Hs as <- <-.
    destruct (Push_state pm ok ks vs c) as (_ & _ & -> & -> & _). done.
  - injection Hs as <- <-.
    destruct (Pull_state pm ok ks c) as (_ & _ & _ & [[-> ->]|(_ & -> & ->)]); [done|].
    unfold Aggregator.Register. intros tm. rewrite !lookup_insert.
    case_decide; [by eauto|]. apply Hreg.
  - injection Hs as <- <-. done.
  - injection Hs as <- <-. by destruct k.
  - apply Accept_cases in Hs as (_ & _ & Hc).
    assert (Hins : ∀ tm, is_Some (Aggregator.Insert mail (pull_aggregator_ c) !! tm) →
                         is_Some (pull_pool_ c !! tm)).
    { intros tm. rewrite Aggregator_Insert_lookup, fmap_is_Some. apply Hreg. }
    destruct Hc as [(_ & _ & -> & ->)|[(_ & _ & _ & -> & ->)|(_ & _ & _ & Hset & ->)]];
      [done|done|].
    intros tm. unfold Aggregator.Delete. rewrite lookup_delete.
    case_decide; [by intros [? ?]|]. intros Htm.
    rewrite (FuturePool_Set_lookup _ _ _ _ tm Hset), decide_False by done.
    by apply Hins.
  - destruct (Notify h c) as [d|e] eqn:Hn; simpl in Hs; [|done].
    injection Hs as <- <-.
    destruct (Notify_Ok h c d Hn) as (-> & _ & -> & _). done.
Qed.

(** A run without [Notify] calls on such a container never fails. *)
Lemma run_total (ks : list (Postmaster * Call)) (c : Container) :
  pull_registered c → Forall (λ pk, not_notify pk.2) ks →
  ∃ c' evs, run ks c = Ok (c', evs).
Proof.
  revert c. induction ks as [|[pm k] ks IH]; intros c Hreg Hall; simpl.
  - by eexists _, _.
  - apply Forall_cons in Hall as [Hk Hall]. simpl in Hk.
    assert (Hstep : ∃ c1 e1, step pm k c = Ok (c1, e1)).
    { destruct k as [ok kk vs|ok kk| |k|mail|h]; simpl; try done;
        try by eexists _, _.
      by apply Accept_total. }
    destruct Hstep as (c1 & e1 & Hs). rewrite Hs. simpl.
    destruct (IH c1) as (c2 & e2 & ->);
      [exact (step_pull_registered pm k c c1 e1 Hreg Hs)|done|].
    simpl. by eexists _, _.
Qed.

(** C6. In a run of a container whose clock does not overflow and whose
    pending sets are for times already handed out, the delete of the
    pending set of a time is invoked as often as the aggregation of that
    time is seen to succeed, and at most once: it directly follows the
    first and only successful test (and the set of the future) within the
    same [Accept], the pending set is gone afterwards, and replies for the
    time that arrive later and any other call neither delete it again nor
    bring it back.  Such a run does not fail when every pending set has its
    pull future and the transport notifies nothing. *)
Theorem Delete_invoked_once
  (ks : list (Postmaster * Call)) (c : Container) (tm : Z) :
  in_int32 (cur_time_ c) →
  cur_time_ c + Z.of_nat (length ks) ≤ kint32max →
  pending_bounded c →
  (∀ c' evs, run ks c = Ok (c', evs) →
     (∃ blocks, evs = concat blocks ∧ Forall call_events blocks
                ∧ length blocks = length ks)
     ∧ occurrences (EvDelete tm) evs = occurrences (EvSuccess tm true) evs
     ∧ (occurrences (EvDelete tm) evs ≤ 1)%nat
     ∧ (occurrences (EvDelete tm) evs = 1%nat → pull_aggregator_ c' !! tm = None))
  ∧ (pull_registered c → Forall (λ pk, not_notify pk.2) ks →
     ∃ c' evs, run ks c = Ok (c', evs)).
Proof.
  intros Hr Hb Hpb. split; [|apply run_total].
  intros c' evs Hrun. split; [by eapply run_call_events|].
  destruct (run_delete ks c c' evs tm Hr Hb Hpb Hrun) as [Heq [Hz|[Hone Hgone]]].
  - split; [done|]. rewrite Hz. split; [lia|done].
  - split; [done|]. rewrite Hone. split; [lia|done].
Qed.

(** ** Further properties: replies *)

Lemma FuturePool_Set_same_dom {V} (tm : Z) (v : V) (p p' : FuturePool.t V) :
  FuturePool.Set_ tm v p = Ok p' → dom p' = dom p.
Proof.
  unfold FuturePool.Set_. destruct (p !! tm) eqn:E; [|done].
  intros [= <-]. rewrite dom_insert_L.
  apply (elem_of_dom_2 (D := gset Z)) in E. set_solver.
Qed.

(** X10. [Accept] registers nothing: the times with a pull future are the
    same after it and no pending set appears.  A reply touches the pull
    future and the pending set of its own time only; a pending set that
    survives keeps its targets and loses no acknowledgment; and a pull
    future that changes is the one of the reply's time, which is then
    satisfied with [true] while its pending set is gone. *)
Theorem Accept_registers_nothing
  (pm : Postmaster) (mail : Mail) (c c' : Container) (evs : list Event) :
  Accept pm mail c = Ok (c', evs) →
  (∀ tm, tm ≠ time (flag mail) →
     pull_pool_ c' !! tm = pull_pool_ c !! tm
     ∧ pull_aggregator_ c' !! tm = pull_aggregator_ c !! tm)
  ∧ dom (pull_pool_ c') = dom (pull_pool_ c)
  ∧ (∀ tm p', pull_aggregator_ c' !! tm = Some p' →
       ∃ p, pull_aggregator_ c !! tm = Some p
            ∧ Aggregator.targets p' = Aggregator.targets p
            ∧ Aggregator.acked p ⊆ Aggregator.acked p')
  ∧ (∀ tm, pull_pool_ c' !! tm ≠ pull_pool_ c !! tm →
       tm = time (flag mail)
       ∧ pull_pool_ c' !! tm = Some (Some true)
       ∧ pull_aggregator_ c' !! tm = None
       ∧ EvDelete tm ∈ evs).
Proof.
  intros Ha. split; [intros tm Hne; by eapply Accept_other_times|].
  apply Accept_cases in Ha as (_ & _ & Hc).
  assert (Hins : ∀ tm p', Aggregator.Insert mail (pull_aggregator_ c) !! tm = Some p' →
            ∃ p, pull_aggregator_ c !! tm = Some p
                 ∧ Aggregator.targets p' = Aggregator.targets p
                 ∧ Aggregator.acked p ⊆ Aggregator.acked p').
  { intros tm p'. rewrite Aggregator_Insert_lookup.
    destruct (pull_aggregator_ c !! tm) as [p|]; simpl; [|done].
    intros [= <-]. exists p. simpl. split; [done|]. split; [done|]. set_solver. }
  destruct Hc as [(_ & -> & -> & ->)|[(_ & _ & -> & -> & ->)|(_ & _ & -> & Hset & ->)]].
  - split; [done|]. split; [|done]. intros tm p' Hp. exists p'. by repeat split.
  - split; [done|]. split; [done|done].
  - split; [by eapply FuturePool_Set_same_dom|]. split.
    + intros tm p'. unfold Aggregator.Delete. rewrite lookup_delete.
      case_decide; [done|]. apply Hins.
    + intros tm. rewrite (FuturePool_Set_lookup _ _ _ _ tm Hset).
      case_decide as Heq; [|done]. subst tm. intros _.
      split; [done|]. split; [done|]. split.
      * unfold Aggregator.Delete. apply lookup_delete_eq.
      * set_solver.
Qed.

(** A reply that does not complete its time. *)
Lemma Accept_incomplete (pm : Postmaster) (mail : Mail) (c : Container) :
  has_bit (type (flag mail)) Header_REPLY = true →
  Aggregator.Success (time (flag mail)) (GetNodeGroup pm)
    (Aggregator.Insert mail (pull_aggregator_ c)) = false →
  ∃ c', Accept pm mail c = Ok (c', [EvSuccess (time (flag mail)) false])
        ∧ pull_pool_ c' = pull_pool_ c
        ∧ pull_aggregator_ c' = Aggregator.Insert mail (pull_aggregator_ c).
Proof.
  intros Hbit Hs. unfold Accept. rewrite Hbit. simpl. rewrite Hs. simpl.
  eexists. split; [done|].
  destruct (is_server pm); [|done].
  by destruct (ReadAll_frame
    (with_pull_aggregator (Aggregator.Insert mail (pull_aggregator_ c))
       (with_mails_received (mails_received_ c ++ [mail]) c)))
    as (_ & _ & -> & ->).
Qed.

Lemma Accept_not_reply (pm : Postmaster) (mail : Mail) (c : Container) :
  has_bit (type (flag mail)) Header_REPLY = false →
  ∃ c', Accept pm mail c = Ok (c', [])
        ∧ pull_pool_ c' = pull_pool_ c
        ∧ pull_aggregator_ c' = pull_aggregator_ c.
Proof.
  intros Hbit. unfold Accept. rewrite Hbit. simpl.
  eexists. split; [done|].
  destruct (is_server pm); [|done].
  by destruct (ReadAll_frame
    (with_mails_received (mails_received_ c ++ [mail]) c))
    as (_ & _ & -> & ->).
Qed.

Lemma Aggregator_Insert_twice (mail : Mail) (a : Aggregator.t) :
  Aggregator.Insert mail (Aggregator.Insert mail a) = Aggregator.Insert mail a.
Proof.
  apply map_eq. intros tm. rewrite !Aggregator_Insert_lookup.
  destruct (a !! tm) as [[tg ak]|]; simpl; [|done].
  do 2 f_equal. set_solver.
Qed.

(** X11. A reply that is delivered twice does no harm: after a mail has
    been accepted, accepting the same mail again under the same node group
    does not fail, sets no future, deletes nothing, and leaves the pull
    futures and the pending sets as the first delivery left them. *)
Theorem Accept_duplicate_reply
  (pm : Postmaster) (mail : Mail) (c c1 : Container) (e1 : list Event) :
  Accept pm mail c = Ok (c1, e1) →
  ∃ c2 e2, Accept pm mail c1 = Ok (c2, e2)
           ∧ pull_pool_ c2 = pull_pool_ c1
           ∧ pull_aggregator_ c2 = pull_aggregator_ c1
           ∧ (e2 = [] ∨ e2 = [EvSuccess (time (flag mail)) false]).
Proof.
  intros Ha. apply Accept_cases in Ha as (_ & _ & Hc).
  destruct Hc as [(Hbit & _)|[(Hbit & Hs & _ & _ & Hagg)|(Hbit & _ & _ & _ & Hagg)]].
  - destruct (Accept_not_reply pm mail c1 Hbit) as (c2 & Ha2 & ? & ?).
    exists c2, []. split; [done|]. split; [done|]. split; [done|by left].
  - destruct (Accept_incomplete pm mail c1 Hbit) as (c2 & Ha2 & Hp2 & Hg2).
    { by rewrite Hagg, Aggregator_Insert_twice. }
    exists c2, [EvSuccess (time (flag mail)) false].
    split; [done|]. split; [done|]. split; [|by right].
    by rewrite Hg2, Hagg, Aggregator_Insert_twice.
  - assert (Hnone : pull_aggregator_ c1 !! time (flag mail) = None).
    { rewrite Hagg. unfold Aggregator.Delete. apply lookup_delete_eq. }
    destruct (Accept_incomplete pm mail c1 Hbit) as (c2 & Ha2 & Hp2 & Hg2).
    { rewrite (Aggregator_Insert_dropped _ _ Hnone).
      by apply Aggregator_Success_not_pending. }
    exists c2, [EvSuccess (time (flag mail)) false].
    split; [done|]. split; [done|]. split; [|by right].
    by rewrite Hg2, (Aggregator_Insert_dropped _ _ Hnone).
Qed.

(** ** Further properties: futures over a run *)

Lemma futures_kept_refl (p : FuturePool.t bool) : futures_kept p p.
Proof. by intros tm. Qed.

Lemma futures_kept_trans (p q r : FuturePool.t bool) :
  futures_kept p q → futures_kept q r → futures_kept p r.
Proof.
  intros Hpq Hqr tm. destruct (Hpq tm) as [H1 H2], (Hqr tm) as [H3 H4].
  split; eauto.
Qed.

Lemma futures_kept_Set (tm : Z) (p p' : FuturePool.t bool) :
  FuturePool.Set_ tm true p = Ok p' → futures_kept p p'.
Proof.
  intros Hset t'. rewrite (FuturePool_Set_lookup _ _ _ _ t' Hset).
  case_decide; [by eauto|done].
Qed.

Lemma futures_kept_fresh (tm : Z) (p : FuturePool.t bool) :
  p !! tm = None → futures_kept p (<[tm := None]> p).
Proof.
  intros Hfresh t'. rewrite lookup_insert. case_decide as Heq; [|done].
  subst t'. rewrite Hfresh. split; [by intros [? ?]|done].
Qed.

Lemma step_futures_kept (pm : Postmaster) (k : Call) (c c' : Container) (evs : list Event) :
  step pm k c = Ok (c', evs) →
  futures_kept (push_pool_ c) (push_pool_ c')
  ∧ futures_kept (pull_pool_ c) (pull_pool_ c').
Proof.
  destruct k as [ok ks vs|ok ks| |k|mail|h]; simpl.
  - intros [= <- <-].
    destruct (Push_state pm ok ks vs c) as (_ & _ & -> & _ & [->|[Hf ->]]);
      (split; [|apply futures_kept_refl]);
      [apply futures_kept_refl|by apply futures_kept_fresh].
  - intros [= <- <-].
    destruct (Pull_state pm ok ks c) as (_ & _ & -> & [[-> _]|(Hf & -> & _)]);
      (split; [apply futures_kept_refl|]);
      [apply futures_kept_refl|by apply futures_kept_fresh].
  - intros [= <- <-]. split; apply futures_kept_refl.
  - intros [= <- <-]. destruct k; split; apply futures_kept_refl.
  - intros Ha. apply Accept_cases in Ha as (_ & -> & Hc).
    split; [apply futures_kept_refl|].
    destruct Hc as [(_ & _ & -> & _)|[(_ & _ & _ & -> & _)|(_ & _ & _ & Hset & _)]];
      [apply futures_kept_refl|apply futures_kept_refl|].
    by eapply futures_kept_Set.
  - destruct (Notify h c) as [d|e] eqn:Hn; simpl; [|done].
    intros [= <- <-].
    destruct (Notify_Ok h c d Hn) as (-> & _). split; [|apply futures_kept_refl].
    unfold Notify in Hn. destruct (has_bit (type h) Header_PUSH).
    + destruct (FuturePool.Set_ (time h) true (push_pool_ c)) as [pool|] eqn:Hset;
        simpl in Hn; [|done].
      injection Hn as <-. simpl. by eapply futures_kept_Set.
    + injection Hn as <-. apply futures_kept_refl.
Qed.

(** X12. No call removes a future or resets a completed one: through any
    run, a time that has a push or pull future keeps it, a future that is
    satisfied with [true] stays satisfied with [true], and a [Wait] on a
    time whose push future was satisfied is still ready at the end. *)
Theorem completed_future_stays
  (ks : list (Postmaster * Call)) (c c' : Container) (evs : list Event) :
  run ks c = Ok (c', evs) →
  futures_kept (push_pool_ c) (push_pool_ c')
  ∧ futures_kept (pull_pool_ c) (pull_pool_ c')
  ∧ (∀ tm, push_pool_ c !! tm = Some (Some true) →
           Wait tm c' = (FuturePool.Ready true, c')).
Proof.
  intros Hrun.
  assert (Hkept : futures_kept (push_pool_ c) (push_pool_ c')
                  ∧ futures_kept (pull_pool_ c) (pull_pool_ c')).
  { revert c c' evs Hrun. induction ks as [|[pm k] ks IH]; intros c c' evs; simpl.
    - intros [= <- <-]. split; apply futures_kept_refl.
    - destruct (step pm k c) as [[c1 e1]|e] eqn:Hs; simpl; [|done].
      destruct (run ks c1) as [[c2 e2]|e] eqn:Hrun; simpl; [|done].
      intros [= <- <-].
      destruct (step_futures_kept pm k c c1 e1 Hs) as [H1 H2].
      destruct (IH c1 c2 e2 Hrun) as [H3 H4].
      split; eapply futures_kept_trans; eauto. }
  destruct Hkept as [Hpush Hpull]. split; [done|]. split; [done|].
  intros tm Htm. apply Wait_ready. left. by apply Hpush.
Qed.

(** ** Further properties: completion of a pull *)

Lemma senders_at_cons (tm : Z) (m : Mail) (rest : list Mail) :
  senders_at tm (m :: rest) = senders_at tm [m] ∪ senders_at tm rest.
Proof.
  apply set_eq. intros n. rewrite elem_of_union, !elem_of_senders_at.
  setoid_rewrite elem_of_cons. setoid_rewrite elem_of_nil. naive_solver.
Qed.

Lemma senders_at_nil (tm : Z) : senders_at tm [] = ∅.
Proof. reflexivity. Qed.

(** The pending set of a time after one accepted reply, when the reply did
    not complete that time. *)
Lemma Accept_pending_after (pm : Postmaster) (mail : Mail) (c c' : Container)
  (evs : list Event) (tm : Z) (p : Aggregator.Pending) :
  has_bit (type (flag mail)) Header_REPLY = true →
  Accept pm mail c = Ok (c', evs) →
  pull_aggregator_ c !! tm = Some p →
  (pull_pool_ c' !! tm = pull_pool_ c !! tm
   ∧ pull_aggregator_ c' !! tm
     = Some (Aggregator.mkPending (Aggregator.targets p)
               (Aggregator.acked p ∪ senders_at tm [mail])))
  ∨ (time (flag mail) = tm
     ∧ (∀ n, n ∈ GetNodeGroup pm → n ∈ Aggregator.targets p →
             n ∈ Aggregator.acked p ∨ n ∈ senders_at tm [mail])
     ∧ pull_pool_ c' !! tm = Some (Some true)
     ∧ pull_aggregator_ c' !! tm = None).
Proof.
  intros Hbit Ha Hp. apply Accept_cases in Ha as (_ & _ & Hc).
  assert (Hins : Aggregator.Insert mail (pull_aggregator_ c) !! tm
                 = Some (Aggregator.mkPending (Aggregator.targets p)
                           (Aggregator.acked p ∪ senders_at tm [mail]))).
  { by rewrite Aggregator_Insert_lookup, Hp. }
  destruct Hc as [(Hno & _)|[(_ & _ & _ & -> & ->)|(_ & Hs & _ & Hset & ->)]].
  - congruence.
  - left. done.
  - destruct (decide (time (flag mail) = tm)) as [Heq|Hne].
    + right. subst tm. split; [done|].
      apply Aggregator_Success_true in Hs as (q & Hq & Hall).
      rewrite Hins in Hq. injection Hq as <-. simpl in Hall.
      split; [|split].
      * intros n Hg Ht. apply elem_of_union. by apply Hall.
      * by rewrite (FuturePool_Set_lookup _ _ _ _ _ Hset), decide_True.
      * unfold Aggregator.Delete. apply lookup_delete_eq.
    + left. split.
      * by rewrite (FuturePool_Set_lookup _ _ _ _ tm Hset), decide_False.
      * unfold Aggregator.Delete. by rewrite lookup_delete_ne.
Qed.

(** Once the pending set of a time is gone, accepted mails do not bring it
    back. *)
Lemma accepts_settled (pm : Postmaster) (mails : list Mail) (c c' : Container)
  (evs : list Event) (tm : Z) :
  pull_aggregator_ c !! tm = None →
  run (accept_calls pm mails) c = Ok (c', evs) →
  pull_aggregator_ c' !! tm = None.
Proof.
  revert c c' evs. induction mails as [|m rest IH]; intros c c' evs Hnone; simpl.
  - by intros [= <- <-].
  - destruct (Accept pm m c) as [[c1 e1]|e] eqn:Ha; simpl; [|done].
    destruct (run (accept_calls pm rest) c1) as [[c2 e2]|e] eqn:Hrun; simpl; [|done].
    intros [= <- <-]. eapply IH; [|exact Hrun].
    apply Accept_cases in Ha as (_ & _ & Hc).
    assert (Hins : Aggregator.Insert m (pull_aggregator_ c) !! tm = None)
      by (by rewrite Aggregator_Insert_lookup, Hnone).
    destruct Hc as [(_ & _ & _ & ->)|[(_ & _ & _ & _ & ->)|(_ & _ & _ & _ & ->)]];
      [done|done|].
    unfold Aggregator.Delete. rewrite lookup_delete. by case_decide.
Qed.

Lemma accepts_futures_kept (pm : Postmaster) (mails : list Mail) (c c' : Container)
  (evs : list Event) :
  run (accept_calls pm mails) c = Ok (c', evs) →
  futures_kept (pull_pool_ c) (pull_pool_ c').
Proof.
  revert c c' evs. induction mails as [|m rest IH]; intros c c' evs; simpl.
  - intros [= <- <-]. apply futures_kept_refl.
  - destruct (Accept pm m c) as [[c1 e1]|e] eqn:Ha; simpl; [|done].
    destruct (run (accept_calls pm rest) c1) as [[c2 e2]|e] eqn:Hrun; simpl; [|done].
    intros [= <- <-].
    destruct (step_futures_kept pm (CallAccept m) c c1 e1 Ha) as [_ H1].
    eapply futures_kept_trans; [exact H1|]. by eapply IH.
Qed.

Lemma accepts_complete (pm : Postmaster) (tm : Z) (mails : list Mail) :
  ∀ (c c' : Container) (evs : list Event) (p : Aggregator.Pending),
  Forall (λ m, has_bit (type (flag m)) Header_REPLY = true) mails →
  pull_aggregator_ c !! tm = Some p →
  (∀ n, n ∈ GetNodeGroup pm → n ∈ Aggregator.targets p →
        n ∈ Aggregator.acked p ∨ n ∈ senders_at tm mails) →
  Exists (λ m, time (flag m) = tm) mails →
  run (accept_calls pm mails) c = Ok (c', evs) →
  pull_pool_ c' !! tm = Some (Some true) ∧ pull_aggregator_ c' !! tm = None.
Proof.
  induction mails as [|m rest IH]; intros c c' evs p Hall Hp Hcov Hex; simpl.
  - by apply Exists_nil in Hex.
  - apply Forall_cons in Hall as [Hbit Hall].
    destruct (Accept pm m c) as [[c1 e1]|e] eqn:Ha; simpl; [|done].
    destruct (run (accept_calls pm rest) c1) as [[c2 e2]|e] eqn:Hrun; simpl; [|done].
    intros [= <- <-].
    destruct (Accept_pending_after pm m c c1 e1 tm p Hbit Ha Hp)
      as [[Hpool Hagg]|(Heq & _ & Hpool & Hagg)].
    + destruct (decide (Exists (λ m, time (flag m) = tm) rest)) as [Hrest|Hrest].
      * eapply (IH c1 c2 e2); [done|exact Hagg| |done|done].
        simpl. intros n Hg Ht. rewrite elem_of_union.
        destruct (Hcov n Hg Ht) as [?|Hs]; [by left; left|].
        rewrite senders_at_cons in Hs. set_solver.
      * exfalso. apply Exists_cons in Hex as [Heq|?]; [|done].
        assert (Hfull : Aggregator.Success (time (flag m)) (GetNodeGroup pm)
                          (Aggregator.Insert m (pull_aggregator_ c)) = true).
        { apply Aggregator_Success_true. rewrite Heq.
          rewrite Aggregator_Insert_lookup, Hp. simpl. eexists. split; [done|].
          simpl. intros n Hg Ht. rewrite elem_of_union.
          destruct (Hcov n Hg Ht) as [?|Hs]; [by left|].
          rewrite senders_at_cons in Hs. apply elem_of_union in Hs as [?|Hs]; [by right|].
          exfalso. apply Hrest. apply Exists_exists.
          apply elem_of_senders_at in Hs as (m' & Hm' & Ht' & _). eauto. }
        apply Accept_cases in Ha as (_ & _ & Hc).
        destruct Hc as [(Hno & _)|[(_ & Hs & _)|(_ & _ & _ & Hset & Hdel)]].
        -- congruence.
        -- congruence.
        -- rewrite Hdel, Heq in Hagg. unfold Aggregator.Delete in Hagg.
           by rewrite lookup_delete_eq in Hagg.
    + split.
      * by apply (accepts_futures_kept pm rest c1 c2 e2 Hrun tm).
      * by eapply accepts_settled.
Qed.

Lemma accepts_incomplete (pm : Postmaster) (tm : Z) (mails : list Mail) :
  ∀ (c c' : Container) (evs : list Event) (p : Aggregator.Pending),
  Forall (λ m, has_bit (type (flag m)) Header_REPLY = true) mails →
  pull_aggregator_ c !! tm = Some p →
  ¬ (∀ n, n ∈ GetNodeGroup pm → n ∈ Aggregator.targets p →
          n ∈ Aggregator.acked p ∨ n ∈ senders_at tm mails) →
  run (accept_calls pm mails) c = Ok (c', evs) →
  pull_pool_ c' !! tm = pull_pool_ c !! tm
  ∧ pull_aggregator_ c' !! tm
    = Some (Aggregator.mkPending (Aggregator.targets p)
              (Aggregator.acked p ∪ senders_at tm mails)).
Proof.
  induction mails as [|m rest IH]; intros c c' evs p Hall Hp Hnot; simpl.
  - intros [= <- <-]. split; [done|]. rewrite Hp. f_equal.
    destruct p as [tg ak]. simpl. f_equal. rewrite senders_at_nil. set_solver.
  - apply Forall_cons in Hall as [Hbit Hall].
    destruct (Accept pm m c) as [[c1 e1]|e] eqn:Ha; simpl; [|done].
    destruct (run (accept_calls pm rest) c1) as [[c2 e2]|e] eqn:Hrun; simpl; [|done].
    intros [= <- <-].
    destruct (Accept_pending_after pm m c c1 e1 tm p Hbit Ha Hp)
      as [[Hpool Hagg]|(_ & Hcov & _)].
    + destruct (IH c1 c2 e2 _ Hall Hagg) as [Hpool2 Hagg2]; [|done|].
      { simpl. intros Hcov. apply Hnot. intros n Hg Ht.
        destruct (Hcov n Hg Ht) as [Hn|Hn].
        - apply elem_of_union in Hn as [?|?]; [by left|right].
          rewrite senders_at_cons. set_solver.
        - right. rewrite senders_at_cons. set_solver. }
      split; [by rewrite Hpool2|]. rewrite Hagg2. simpl. do 2 f_equal.
      rewrite (senders_at_cons tm m rest). set_solver.
    + exfalso. apply Hnot. intros n Hg Ht.
      destruct (Hcov n Hg Ht) as [?|Hn]; [by left|right].
      rewrite senders_at_cons. set_solver.
Qed.

(** X13. A pull is completed by its replies, whatever their order and
    whatever other replies arrive in between.  For a pending pull of time
    [tm] and a list of reply mails accepted one after the other: if every
    member of the node group that the pull targeted has acknowledged, before
    or among these mails, and one of the mails is for [tm], the pull future
    of [tm] is satisfied with [true] and its pending set is gone; if an
    acknowledgment of such a member is still missing, the pull future is
    untouched and the pending set holds the earlier acknowledgments and the
    senders of the mails for [tm]. *)
Theorem Accept_completes_when_all_replied
  (pm : Postmaster) (tm : Z) (mails : list Mail) (c c' : Container)
  (evs : list Event) (p : Aggregator.Pending) :
  Forall (λ m, has_bit (type (flag m)) Header_REPLY = true) mails →
  pull_aggregator_ c !! tm = Some p →
  run (accept_calls pm mails) c = Ok (c', evs) →
  ((∀ n, n ∈ GetNodeGroup pm → n ∈ Aggregator.targets p →
         n ∈ Aggregator.acked p ∨ n ∈ senders_at tm mails) →
   Exists (λ m, time (flag m) = tm) mails →
   pull_pool_ c' !! tm = Some (Some true) ∧ pull_aggregator_ c' !! tm = None)
  ∧ (¬ (∀ n, n ∈ GetNodeGroup pm → n ∈ Aggregator.targets p →
             n ∈ Aggregator.acked p ∨ n ∈ senders_at tm mails) →
     pull_pool_ c' !! tm = pull_pool_ c !! tm
     ∧ pull_aggregator_ c' !! tm
       = Some (Aggregator.mkPending (Aggregator.targets p)
                 (Aggregator.acked p ∪ senders_at tm mails))).
Proof.
  intros Hall Hp Hrun. split.
  - intros Hcov Hex. by eapply accepts_complete.
  - intros Hnot. by eapply accepts_incomplete.
Qed.

End ReadAllFrame.

(** ** Further properties: budgets and clock *)

(** X1. [SetMaxDelay(push, pull)] is [SetMaxPushDelay(push)] and
    [SetMaxPullDelay(pull)] in either order; of two calls of the same setter
    the later one decides; and storing a budget that was read back changes
    nothing. *)
Theorem SetMaxDelay_composes (c : Container) (push pull d1 d2 : Z) :
  SetMaxDelay push pull c = SetMaxPullDelay pull (SetMaxPushDelay push c)
  ∧ SetMaxDelay push pull c = SetMaxPushDelay push (SetMaxPullDelay pull c)
  ∧ SetMaxPushDelay d2 (SetMaxPushDelay d1 c) = SetMaxPushDelay d2 c
  ∧ SetMaxPullDelay d2 (SetMaxPullDelay d1 c) = SetMaxPullDelay d2 c
  ∧ SetMaxDelay d1 d2 (SetMaxDelay push pull c) = SetMaxDelay d1 d2 c
  ∧ SetMaxDelay (max_push_delay_ (SetMaxDelay push pull c))
      (max_pull_delay_ (SetMaxDelay push pull c)) c
    = SetMaxDelay push pull c.
Proof.
  destruct c. unfold SetMaxDelay, SetMaxPushDelay, SetMaxPullDelay,
    with_max_push_delay, with_max_pull_delay. simpl.
  repeat split; try done. f_equal; lia.
Qed.

(** X2. A setter writes budgets only: the clock, the received mails, the
    future pools and the aggregators are as before.  For an argument that is
    an [int] the stored budget lies between 0 and [kInfDelay], and it is the
    unbounded budget [kInfDelay] only for the argument [kInfDelay]. *)
Theorem setters_frame_and_range (k : DelayCall) (c : Container) :
  (cur_time_ (configure k c) = cur_time_ c
   ∧ mails_received_ (configure k c) = mails_received_ c
   ∧ push_pool_ (configure k c) = push_pool_ c
   ∧ pull_pool_ (configure k c) = pull_pool_ c
   ∧ aggregator_ (configure k c) = aggregator_ c
   ∧ pull_aggregator_ (configure k c) = pull_aggregator_ c)
  ∧ (∀ delay, in_int32 delay →
       0 ≤ max_push_delay_ (SetMaxPushDelay delay c) ≤ kInfDelay
       ∧ (max_push_delay_ (SetMaxPushDelay delay c) = kInfDelay ↔ delay = kInfDelay)
       ∧ 0 ≤ max_pull_delay_ (SetMaxPullDelay delay c) ≤ kInfDelay
       ∧ (max_pull_delay_ (SetMaxPullDelay delay c) = kInfDelay ↔ delay = kInfDelay))
  ∧ (∀ push pull, in_int32 push → in_int32 pull →
       0 ≤ max_push_delay_ (SetMaxDelay push pull c) ≤ kInfDelay
       ∧ 0 ≤ max_pull_delay_ (SetMaxDelay push pull c) ≤ kInfDelay
       ∧ (max_push_delay_ (SetMaxDelay push pull c) = kInfDelay ↔ push = kInfDelay)
       ∧ (max_pull_delay_ (SetMaxDelay push pull c) = kInfDelay ↔ pull = kInfDelay)).
Proof.
  split; [by destruct k|].
  unfold in_int32, kInfDelay, kint32min, kint32max. simpl.
  split; intros; lia.
Qed.

Lemma wrap32_in_range (z : Z) : in_int32 (wrap32 z).
Proof.
  unfold in_int32, wrap32, kint32min, kint32max.
  pose proof (Z.mod_pos_bound (z + 2 ^ 31) (2 ^ 32)). lia.
Qed.

Lemma wrap32_succ (z : Z) :
  in_int32 z →
  wrap32 (z + 1) = if decide (z = kint32max) then kint32min else z + 1.
Proof.
  intros Hz. case_decide as Hmax.
  - subst z. reflexivity.
  - apply wrap32_id. unfold in_int32, kint32min, kint32max in *. lia.
Qed.

(** X3. [IncrClock] writes the clock only and returns the value it stores.
    The stored value is a 32-bit integer; from a clock below [kint32max] it
    is the successor, and from [kint32max] the increment wraps around to
    [kint32min], below every time issued before. *)
Theorem IncrClock_successor_or_wrap (c : Container) :
  in_int32 (IncrClock c).1
  ∧ Clock (IncrClock c).2 = (IncrClock c).1
  ∧ (in_int32 (cur_time_ c) →
     (IncrClock c).1 = if decide (cur_time_ c = kint32max) then kint32min
                       else cur_time_ c + 1)
  ∧ (mails_received_ (IncrClock c).2 = mails_received_ c
     ∧ max_push_delay_ (IncrClock c).2 = max_push_delay_ c
     ∧ max_pull_delay_ (IncrClock c).2 = max_pull_delay_ c
     ∧ push_pool_ (IncrClock c).2 = push_pool_ c
     ∧ pull_pool_ (IncrClock c).2 = pull_pool_ c
     ∧ aggregator_ (IncrClock c).2 = aggregator_ c
     ∧ pull_aggregator_ (IncrClock c).2 = pull_aggregator_ c).
Proof.
  unfold IncrClock, Clock. simpl. split; [apply wrap32_in_range|].
  split; [done|]. split; [apply wrap32_succ|done].
Qed.

Lemma ticks_S (n : nat) (c : Container) :
  ticks (S n) c = (IncrClock (ticks n c)).2.
Proof. reflexivity. Qed.

(** X4. As long as the 32-bit clock does not overflow, [n] calls of
    [IncrClock] advance the clock by exactly [n], the next call returns the
    clock at the start plus [n + 1], and nothing but the clock has
    changed. *)
Theorem IncrClock_iterated (n : nat) (c : Container) :
  in_int32 (cur_time_ c) →
  cur_time_ c + Z.of_nat n < kint32max →
  Clock (ticks n c) = Clock c + Z.of_nat n
  ∧ (IncrClock (ticks n c)).1 = Clock c + Z.of_nat n + 1
  ∧ ticks n c = with_cur_time (cur_time_ c + Z.of_nat n) c.
Proof.
  intros Hr Hb.
  assert (Hn : ticks n c = with_cur_time (cur_time_ c + Z.of_nat n) c).
  { induction n as [|n IH].
    - simpl. destruct c. unfold with_cur_time. simpl. f_equal. lia.
    - rewrite ticks_S, IH by lia. unfold IncrClock, with_cur_time. simpl.
      rewrite wrap32_id by (unfold in_int32, kint32min, kint32max in *; lia).
      f_equal. lia. }
  rewrite Hn. unfold Clock, IncrClock. simpl. split; [done|]. split; [|done].
  apply wrap32_id. unfold in_int32, kint32min, kint32max in *. lia.
Qed.

(** ** Further properties: the calls of the transport on a worker *)

(** [Accept] on a node that is not a server, case by case. *)
Lemma Accept_worker (pm : Postmaster) (mail : Mail) (c : Container) :
  is_server pm = false →
  Accept pm mail c =
  let c1 := with_mails_received (mails_received_ c ++ [mail]) c in
  if has_bit (type (flag mail)) Header_REPLY then
    let agg := Aggregator.Insert mail (pull_aggregator_ c) in
    if Aggregator.Success (time (flag mail)) (GetNodeGroup pm) agg then
      match FuturePool.Set_ (time (flag mail)) true (pull_pool_ c) with
      | Ok pool =>
          Ok (with_pull_aggregator (Aggregator.Delete (time (flag mail)) agg)
                (with_pull_pool pool c1),
              [EvSuccess (time (flag mail)) true; EvSet (time (flag mail));
               EvDelete (time (flag mail))])
      | Err e => Err e
      end
    else Ok (with_pull_aggregator agg c1, [EvSuccess (time (flag mail)) false])
  else Ok (c1, []).
Proof.
  intros Hw. unfold Accept. rewrite Hw. simpl.
  destruct (has_bit (type (flag mail)) Header_REPLY); [|done]. simpl.
  destruct (Aggregator.Success _ _ _); [|done]. simpl.
  by destruct (FuturePool.Set_ _ _ _).
Qed.

Lemma Accept_worker_queue
  (pm : Postmaster) (mail : Mail) (c c' : Container) (evs : list Event) :
  is_server pm = false →
  Accept pm mail c = Ok (c', evs) →
  mails_received_ c' = mails_received_ c ++ [mail].
Proof.
  intros Hw. rewrite (Accept_worker pm mail c Hw). simpl.
  destruct (has_bit (type (flag mail)) Header_REPLY).
  - destruct (Aggregator.Success _ _ _).
    + destruct (FuturePool.Set_ _ _ _) as [pool|e]; [|done].
      by intros [= <- <-].
    + by intros [= <- <-].
  - by intros [= <- <-].
Qed.

(** X5. On a node that is not a server [Accept] writes the received queue,
    the pull future pool and the pull aggregator and nothing else: the mail
    is appended to the queue whether it is a reply or not, and the push
    futures, the aggregator read by [AggregateSuccess], the clock and the
    budgets are as before; a mail without the REPLY bit leaves the pull side
    alone as well. *)
Theorem Accept_worker_frame
  (pm : Postmaster) (mail : Mail) (c c' : Container) (evs : list Event) :
  is_server pm = false →
  Accept pm mail c = Ok (c', evs) →
  mails_received_ c' = mails_received_ c ++ [mail]
  ∧ push_pool_ c' = push_pool_ c
  ∧ aggregator_ c' = aggregator_ c
  ∧ cur_time_ c' = cur_time_ c
  ∧ max_push_delay_ c' = max_push_delay_ c
  ∧ max_pull_delay_ c' = max_pull_delay_ c
  ∧ (∀ pm' tm, AggregateSuccess pm' tm c' = AggregateSuccess pm' tm c)
  ∧ (has_bit (type (flag mail)) Header_REPLY = false →
     evs = [] ∧ pull_pool_ c' = pull_pool_ c
     ∧ pull_aggregator_ c' = pull_aggregator_ c).
Proof.
  intros Hw. rewrite (Accept_worker pm mail c Hw). simpl.
  destruct (has_bit (type (flag mail)) Header_REPLY).
  - destruct (Aggregator.Success _ _ _).
    + destruct (FuturePool.Set_ _ _ _) as [pool|e]; [|done].
      intros [= <- <-]. by repeat split.
    + intros [= <- <-]. by repeat split.
  - intros [= <- <-]. by repeat split.
Qed.

Lemma Push_mails (pm : Postmaster) (send_ok : bool) (ks vs : list Z) (c : Container) :
  mails_received_ (Push pm send_ok ks vs c).2 = mails_received_ c.
Proof.
  unfold Push, IncrClock. simpl.
  destruct (FuturePool.Create _ _); [|done].
  destruct (within_budget _ _ _); [destruct send_ok|]; done.
Qed.

Lemma Pull_mails (pm : Postmaster) (send_ok : bool) (ks : list Z) (c : Container) :
  mails_received_ (Pull pm send_ok ks c).2 = mails_received_ c.
Proof.
  unfold Pull, IncrClock. simpl.
  destruct (FuturePool.Create _ _); [|done].
  destruct (within_budget _ _ _); [destruct send_ok|]; done.
Qed.

(** X6. On a node that is not a server the received queue is first in,
    first out: after a run it holds what it held before followed by the
    accepted mails in the order of their arrival, whatever other calls the
    run contains. *)
Theorem Accept_queues_in_order
  (ks : list (Postmaster * Call)) (c c' : Container) (evs : list Event) :
  Forall (λ pk, is_server pk.1 = false) ks →
  run ks c = Ok (c', evs) →
  mails_received_ c' = mails_received_ c ++ accepted_mails ks.
Proof.
  revert c c' evs. induction ks as [|[pm k] ks IH]; intros c c' evs Hall; simpl.
  - intros [= <- <-]. by rewrite app_nil_r.
  - apply Forall_cons in Hall as [Hw Hall]. simpl in Hw.
    destruct (step pm k c) as [[c1 e1]|e] eqn:Hs; simpl; [|done].
    destruct (run ks c1) as [[c2 e2]|e] eqn:Hrun; simpl; [|done].
    intros [= <- <-]. rewrite (IH c1 c2 e2 Hall Hrun).
    unfold accepted_mails. simpl.
    destruct k as [ok kk vs|ok kk| |k|mail|h]; simpl in *.
    + injection Hs as <- <-. by rewrite Push_mails.
    + injection Hs as <- <-. by rewrite Pull_mails.
    + injection Hs as <- <-. done.
    + injection Hs as <- <-. by destruct k.
    + rewrite (Accept_worker_queue pm mail c c1 e1 Hw Hs).
      by rewrite <- app_assoc.
    + destruct (Notify h c) as [d|e] eqn:Hn; simpl in Hs; [|done].
      injection Hs as <- <-.
      by destruct (Notify_Ok h c d Hn) as (_ & _ & _ & -> & _).
Qed.

(** [Notify], case by case. *)
Lemma Notify_unfold (h : Header) (c : Container) :
  Notify h c =
  if has_bit (type h) Header_PUSH then
    match push_pool_ c !! time h with
    | Some _ => Ok (with_push_pool (<[time h := Some true]> (push_pool_ c)) c)
    | None => Err UnknownTimeError
    end
  else Ok c.
Proof.
  unfold Notify, FuturePool.Set_.
  destruct (has_bit (type h) Header_PUSH); [|done].
  by destruct (push_pool_ c !! time h).
Qed.

Lemma with_push_pool_twice (p q : FuturePool.t bool) (c : Container) :
  with_push_pool p (with_push_pool q c) = with_push_pool p c.
Proof. reflexivity. Qed.

(** X7. Notifying the same header twice is the same as notifying it once,
    and two notifications give the same container and the same failure in
    either order.  A notification registers no push future and removes
    none, and a push future that is satisfied with [true] stays so. *)
Theorem Notify_idempotent_commutes (h1 h2 : Header) (c : Container) :
  (Notify h1 c ≫= Notify h1) = Notify h1 c
  ∧ (Notify h1 c ≫= Notify h2) = (Notify h2 c ≫= Notify h1)
  ∧ (∀ c', Notify h1 c = Ok c' →
       dom (push_pool_ c') = dom (push_pool_ c)
       ∧ ∀ tm, push_pool_ c !! tm = Some (Some true) →
               push_pool_ c' !! tm = Some (Some true)).
Proof.
  split; [|split].
  - rewrite (Notify_unfold h1 c).
    destruct (has_bit (type h1) Header_PUSH) eqn:Hb1; simpl.
    + destruct (push_pool_ c !! time h1) as [cell|] eqn:E1; simpl; [|done].
      rewrite Notify_unfold, Hb1. simpl. rewrite lookup_insert_eq.
      rewrite with_push_pool_twice. by rewrite insert_insert_eq.
    + by rewrite Notify_unfold, Hb1.
  - rewrite (Notify_unfold h1 c), (Notify_unfold h2 c).
    destruct (has_bit (type h1) Header_PUSH) eqn:Hb1;
      destruct (has_bit (type h2) Header_PUSH) eqn:Hb2.
    + destruct (push_pool_ c !! time h1) as [cell1|] eqn:E1;
        destruct (push_pool_ c !! time h2) as [cell2|] eqn:E2; simpl;
        rewrite ?Notify_unfold, ?Hb1, ?Hb2; simpl.
      * destruct (decide (time h1 = time h2)) as [Heq|Hne].
        -- rewrite Heq in *. rewrite !lookup_insert_eq. done.
        -- rewrite !lookup_insert_ne, E1, E2 by done.
           rewrite !with_push_pool_twice. f_equal. f_equal.
           by apply insert_insert_ne.
      * destruct (decide (time h1 = time h2)) as [Heq|Hne].
        -- rewrite Heq in E1. congruence.
        -- by rewrite lookup_insert_ne, E2.
      * destruct (decide (time h2 = time h1)) as [Heq|Hne].
        -- rewrite Heq in E2. congruence.
        -- by rewrite lookup_insert_ne, E1.
      * done.
    + simpl. rewrite (Notify_unfold h1 c), Hb1.
      destruct (push_pool_ c !! time h1); simpl; [|done].
      by rewrite Notify_unfold, Hb2.
    + simpl. rewrite (Notify_unfold h2 c), Hb2.
      destruct (push_pool_ c !! time h2); simpl; [|done].
      by rewrite Notify_unfold, Hb1.
    + simpl. by rewrite !Notify_unfold, Hb1, Hb2.
  - intros c'. rewrite Notify_unfold.
    destruct (has_bit (type h1) Header_PUSH); [|by intros [= <-]].
    destruct (push_pool_ c !! time h1) as [cell|] eqn:E1; [|done].
    intros [= <-]. simpl. split.
    + rewrite dom_insert_L. apply (elem_of_dom_2 (D := gset Z)) in E1.
      set_solver.
    + intros tm Htm. rewrite lookup_insert. by case_decide.
Qed.

(** X8. On a node that is not a server a notification and an accepted mail
    do not see each other: [Notify] then [Accept] gives the same container,
    the same events and the same failure as [Accept] then [Notify]. *)
Theorem Notify_Accept_commute
  (pm : Postmaster) (h : Header) (mail : Mail) (c : Container) :
  is_server pm = false →
  (Notify h c ≫= Accept pm mail)
  = (Accept pm mail c ≫= λ r, Notify h r.1 ≫= λ c2, Ok (c2, r.2)).
Proof.
  intros Hw. rewrite (Notify_unfold h c), (Accept_worker pm mail c Hw).
  destruct (has_bit (type h) Header_PUSH) eqn:Hb.
  - destruct (push_pool_ c !! time h) as [cell|] eqn:E; simpl.
    + rewrite (Accept_worker pm mail _ Hw). simpl.
      destruct (has_bit (type (flag mail)) Header_REPLY); simpl.
      * destruct (Aggregator.Success _ _ _); simpl.
        -- destruct (FuturePool.Set_ _ _ _) as [pool|e]; simpl; [|done].
           rewrite Notify_unfold, Hb. simpl. by rewrite E.
        -- rewrite Notify_unfold, Hb. simpl. by rewrite E.
      * rewrite Notify_unfold, Hb. simpl. by rewrite E.
    + destruct (has_bit (type (flag mail)) Header_REPLY); simpl.
      * destruct (Aggregator.Success _ _ _); simpl.
        -- destruct (FuturePool.Set_ _ _ _) as [pool|e] eqn:Hset; simpl.
           ++ rewrite Notify_unfold, Hb. simpl. by rewrite E.
           ++ unfold FuturePool.Set_ in Hset.
              destruct (pull_pool_ c !! time (flag mail)); [done|].
              by injection Hset as <-.
        -- rewrite Notify_unfold, Hb. simpl. by rewrite E.
      * rewrite Notify_unfold, Hb. simpl. by rewrite E.
  - simpl. rewrite (Accept_worker pm mail c Hw). simpl.
    destruct (has_bit (type (flag mail)) Header_REPLY); simpl.
    + destruct (Aggregator.Success _ _ _); simpl.
      * destruct (FuturePool.Set_ _ _ _) as [pool|e]; simpl; [|done].
        by rewrite Notify_unfold, Hb.
      * by rewrite Notify_unfold, Hb.
    + by rewrite Notify_unfold, Hb.
Qed.

Lemma has_bit_lor (a b mask : Z) :
  has_bit (Z.lor a b) mask = has_bit a mask || has_bit b mask.
Proof.
  unfold has_bit. rewrite Z.land_lor_distr_l, <- negb_andb. f_equal.
  apply eq_true_iff_eq. rewrite andb_true_iff, !Z.eqb_eq.
  apply Z.lor_eq_0_iff.
Qed.

(** X9. The type of a header is a set of bits, and [Notify] and [Accept]
    each test one of them: a type put together with bitwise or has the
    PUSH (or REPLY) bit exactly when one of its parts has it, and the type 0
    has neither.  So a header whose type contains [Header::PUSH], combined
    with whatever else, is notified as a push, and a mail whose type has no
    REPLY bit is only queued by [Accept] on a worker. *)
Theorem type_bits_combine (a b : Z) (h : Header) (mail : Mail) (c : Container) :
  has_bit (Z.lor a b) Header_PUSH
  = has_bit a Header_PUSH || has_bit b Header_PUSH
  ∧ has_bit (Z.lor a b) Header_REPLY
    = has_bit a Header_REPLY || has_bit b Header_REPLY
  ∧ has_bit 0 Header_PUSH = false ∧ has_bit 0 Header_REPLY = false
  ∧ (Header_PUSH ≠ 0 → type h = Z.lor Header_PUSH a →
     Notify h c = FuturePool.Set_ (time h) true (push_pool_ c)
                  ≫= λ pool, Ok (with_push_pool pool c))
  ∧ (∀ pm, is_server pm = false →
       has_bit (type (flag mail)) Header_REPLY = false →
       Accept pm mail c
       = Ok (with_mails_received (mails_received_ c ++ [mail]) c, [])).
Proof.
  split; [apply has_bit_lor|]. split; [apply has_bit_lor|].
  split; [done|]. split; [done|]. split.
  - intros Hp Hty. unfold Notify. rewrite Hty, has_bit_lor.
    assert (has_bit Header_PUSH Header_PUSH = true) as ->; [|done].
    unfold has_bit. rewrite Z.land_diag. apply negb_true_iff. by apply Z.eqb_neq.
  - intros pm Hw Hbit. rewrite (Accept_worker pm mail c Hw). simpl.
    by rewrite Hbit.
Qed.

End ContainerOps.

(** ** The scenario, run *)

Lemma drain_frame (c : Container) :
  cur_time_ (drain c) = cur_time_ c
  ∧ push_pool_ (drain c) = push_pool_ c
  ∧ pull_pool_ (drain c) = pull_pool_ c
  ∧ pull_aggregator_ (drain c) = pull_aggregator_ c.
Proof. done. Qed.

Lemma example_run :
  ∃ c', run 1 2 4 drain example_calls example_container = Ok (c', example_trace).
Proof.
  match eval vm_compute in (run 1 2 4 drain example_calls example_container) with
  | Ok (?c', _) => exists c'
  end.
  vm_compute. reflexivity.
Qed.

Lemma example_container_in_range :
  in_int32 (cur_time_ example_container)
  ∧ cur_time_ example_container + Z.of_nat (length example_calls) ≤ kint32max.
Proof. unfold in_int32, kint32min, kint32max. simpl. lia. Qed.

Lemma example_container_bounded : pending_bounded example_container.
Proof. intros tm [p Hp]. simpl in Hp. by rewrite lookup_empty in Hp. Qed.

(** The times of the scenario, 1, 2 and 3, are handed out in increasing
    order. *)
Lemma logical_times_scenario :
  in_int32 (cur_time_ example_container)
  ∧ cur_time_ example_container + Z.of_nat (length example_calls) ≤ kint32max
  ∧ ∃ c', run 1 2 4 drain example_calls example_container = Ok (c', example_trace)
          ∧ issued_times example_trace = [1; 2; 3]
          ∧ StronglySorted Z.lt (issued_times example_trace)
          ∧ NoDup (issued_times example_trace)
          ∧ Forall (λ t, Clock example_container < t ≤ Clock c')
              (issued_times example_trace).
Proof.
  destruct example_container_in_range as [Hr Hb].
  split; [exact Hr|]. split; [exact Hb|].
  destruct example_run as [c' Hrun]. exists c'.
  split; [exact Hrun|]. split; [reflexivity|].
  exact (proj1 (logical_times_strictly_increasing 1 2 4 drain drain_frame
                  example_calls example_container Hr Hb) c' example_trace Hrun).
Defined.

(** After the scenario, a wait on time 7, which was never handed out,
    fails with [UnknownTimeError]. *)
Lemma Wait_scenario :
  ∃ c', run 1 2 4 drain example_calls example_container = Ok (c', example_trace)
        ∧ (7 ∉ issued_times example_trace)
        ∧ Wait 7 c' = (FuturePool.Fails UnknownTimeError, c').
Proof.
  destruct example_run as [c' Hrun]. exists c'.
  assert (Hni : 7 ∉ issued_times example_trace).
  { simpl. rewrite !not_elem_of_cons. repeat split; try done. apply not_elem_of_nil. }
  split; [exact Hrun|]. split; [exact Hni|].
  exact (proj1 (Wait_unknown_fails_completed_ready 1 2 4 drain drain_frame
                  example_calls example_container 7)
           c' example_trace eq_refl eq_refl Hrun Hni).
Defined.

(** A reply of server 11 for time 2 that reaches a container with no
    pending set is dropped. *)
Lemma Accept_late_reply_scenario :
  has_bit (type (flag (example_reply 11 2))) 4 = true
  ∧ pull_aggregator_ example_container !! time (flag (example_reply 11 2)) = None
  ∧ ∃ c', Accept 4 drain example_pm (example_reply 11 2) example_container
          = Ok (c', [EvSuccess 2 false])
          ∧ pull_pool_ c' = pull_pool_ example_container
          ∧ pull_aggregator_ c' = pull_aggregator_ example_container.
Proof.
  split; [reflexivity|]. split; [reflexivity|].
  destruct (Accept_late_reply_dropped 4 drain drain_frame example_pm
              (example_reply 11 2) example_container eq_refl eq_refl)
    as (c' & Ha & Hpool & Hagg & _).
  exists c'. split; [exact Ha|]. split; [exact Hpool|exact Hagg].
Defined.

(** In the scenario the pending set of time 2 is deleted once, with the
    one successful test, although a third reply arrives after it. *)
Lemma Delete_scenario :
  pending_bounded example_container
  ∧ ∃ c', run 1 2 4 drain example_calls example_container = Ok (c', example_trace)
          ∧ occurrences (EvDelete 2) example_trace = 1%nat
          ∧ occurrences (EvDelete 2) example_trace
            = occurrences (EvSuccess 2 true) example_trace
          ∧ (occurrences (EvDelete 2) example_trace ≤ 1)%nat
          ∧ pull_aggregator_ c' !! 2 = None.
Proof.
  destruct example_container_in_range as [Hr Hb].
  split; [exact example_container_bounded|].
  destruct example_run as [c' Hrun]. exists c'.
  destruct (proj1 (Delete_invoked_once 1 2 4 drain drain_frame example_calls
                     example_container 2 Hr Hb example_container_bounded)
              c' example_trace Hrun)
    as (_ & Heq & Hle & Hgone).
  split; [exact Hrun|]. split; [reflexivity|]. split; [exact Heq|].
  split; [exact Hle|]. exact (Hgone eq_refl).
Defined.



(** C7 on the scenario: on the fresh container a push and a pull of the
    cache are sent under time 1, and a [Wait] on the returned time blocks
    rather than fails. *)
Lemma Push_Pull_timestamp_scenario :
  let r := KVCache_Push 1 example_pm true [1; 3] [11; 12; 31; 32]
             (mkSyncOpts [] false) example_container in
  let q := KVCache_Pull 2 example_pm true [1; 3]
             (mkSyncOpts [] false) example_container in
  r.1 = (1, Sent (mkMail (mkHeader 1 1 1) [1; 3] [11; 12; 31; 32]))
  ∧ Wait r.1.1 r.2 = (FuturePool.Blocks, r.2)
  ∧ q.1 = (1, Sent (mkMail (mkHeader 2 1 1) [1; 3] []))
  ∧ pull_aggregator_ q.2 !! q.1.1 = Some (Aggregator.mkPending {[10; 11]} ∅).
Proof.
  intros r q.
  destruct (Push_Pull_return_timestamp 1 2 example_pm true [1; 3]
              [11; 12; 31; 32] (mkSyncOpts [] false) example_container)
    as ((Hrt & _ & Hqt & _) & [Hsp Hsq] & _ & _ & [Hp Hq] & _).
  fold r in Hrt, Hsp, Hp. fold q in Hqt, Hsq, Hq.
  specialize (Hsp eq_refl eq_refl eq_refl).
  specialize (Hsq eq_refl eq_refl eq_refl).
  destruct (Hp _ Hsp) as (_ & _ & _ & _ & _ & Hwait).
  destruct (Hq _ Hsq) as (_ & _ & _ & _ & Hagg & _).
  split; [|split; [exact Hwait|split; [|exact Hagg]]].
  - destruct r as [[tr ir] cr]. simpl in *. by rewrite Hrt, Hsp.
  - destruct q as [[tq iq] cq]. simpl in *. by rewrite Hqt, Hsq.
Defined.

(** ** The further properties on the scenario *)

(** X4 on the scenario: three ticks from the fresh container. *)
Lemma IncrClock_iterated_scenario :
  in_int32 (cur_time_ example_container)
  ∧ cur_time_ example_container + Z.of_nat 3 < kint32max
  ∧ Clock (ticks 3 example_container) = 3
  ∧ (IncrClock (ticks 3 example_container)).1 = 4.
Proof.
  assert (Hr : in_int32 (cur_time_ example_container))
    by (unfold in_int32, kint32min, kint32max; simpl; lia).
  assert (Hb : cur_time_ example_container + Z.of_nat 3 < kint32max)
    by (unfold kint32max; simpl; lia).
  destruct (IncrClock_iterated 3 example_container Hr Hb) as (Hc & Hn & _).
  split; [exact Hr|]. split; [exact Hb|]. split; [exact Hc|exact Hn].
Defined.

(** X5 on the scenario: with a push (time 1) and a pull (time 2) in
    flight, the reply of server 10 is queued and the push side is as it
    was. *)
Lemma Accept_worker_frame_scenario :
  let c := (Pull 2 example_pm true [1; 3]
              (Push 1 example_pm true [1; 3] [11; 12; 31; 32] example_container).2).2 in
  is_server example_pm = false
  ∧ ∃ c', Accept 4 drain example_pm (example_reply 10 2) c
          = Ok (c', [EvSuccess 2 false])
          ∧ mails_received_ c' = [example_reply 10 2]
          ∧ push_pool_ c' = push_pool_ c.
Proof.
  intros c. split; [reflexivity|].
  match eval vm_compute in (Accept 4 drain example_pm (example_reply 10 2) c) with
  | Ok (?c', _) => exists c'
  end.
  assert (Ha : Accept 4 drain example_pm (example_reply 10 2) c
               = Ok (_, [EvSuccess 2 false])) by (vm_compute; reflexivity).
  destruct (Accept_worker_frame 4 drain example_pm (example_reply 10 2) c _ _
              eq_refl Ha) as (Hq & Hp & _).
  split; [exact Ha|]. split; [exact Hq|exact Hp].
Defined.

(** X6 on the scenario: the three replies are queued in the order of their
    arrival. *)
Lemma Accept_queues_scenario :
  Forall (λ pk : Postmaster * Call, is_server pk.1 = false) example_calls
  ∧ ∃ c', run 1 2 4 drain example_calls example_container = Ok (c', example_trace)
          ∧ mails_received_ c'
            = [example_reply 10 2; example_reply 11 2; example_reply 11 2].
Proof.
  assert (Hall : Forall (λ pk : Postmaster * Call, is_server pk.1 = false)
                   example_calls) by (repeat constructor).
  split; [exact Hall|].
  destruct example_run as [c' Hrun]. exists c'. split; [exact Hrun|].
  exact (Accept_queues_in_order 1 2 4 drain example_calls example_container
           c' example_trace Hall Hrun).
Defined.

(** X8 on the scenario: the acknowledgment of push 1 and the reply of
    server 10 to pull 2, in either order. *)
Lemma Notify_Accept_scenario :
  let c := (Pull 2 example_pm true [1; 3]
              (Push 1 example_pm true [1; 3] [11; 12; 31; 32] example_container).2).2 in
  is_server example_pm = false
  ∧ (Notify 1 (mkHeader 1 1 1) c ≫= Accept 4 drain example_pm (example_reply 10 2))
    = (Accept 4 drain example_pm (example_reply 10 2) c
       ≫= λ r, Notify 1 (mkHeader 1 1 1) r.1 ≫= λ c2, Ok (c2, r.2)).
Proof.
  intros c. split; [reflexivity|].
  exact (Notify_Accept_commute 1 4 drain example_pm (mkHeader 1 1 1)
           (example_reply 10 2) c eq_refl).
Defined.

(** X10 on the scenario: the reply of server 10 to pull 2 leaves the times
    with a pull future as they are. *)
Lemma Accept_registers_nothing_scenario :
  let c := (Pull 2 example_pm true [1; 3]
              (Push 1 example_pm true [1; 3] [11; 12; 31; 32] example_container).2).2 in
  ∃ c', Accept 4 drain example_pm (example_reply 10 2) c
        = Ok (c', [EvSuccess 2 false])
        ∧ dom (pull_pool_ c') = dom (pull_pool_ c).
Proof.
  intros c.
  match eval vm_compute in (Accept 4 drain example_pm (example_reply 10 2) c) with
  | Ok (?c', _) => exists c'
  end.
  assert (Ha : Accept 4 drain example_pm (example_reply 10 2) c
               = Ok (_, [EvSuccess 2 false])) by (vm_compute; reflexivity).
  destruct (Accept_registers_nothing 4 drain drain_frame example_pm
              (example_reply 10 2) c _ _ Ha) as (_ & Hdom & _).
  split; [exact Ha|exact Hdom].
Defined.

(** X11 on the scenario: the reply of server 10 to pull 2, delivered
    twice. *)
Lemma Accept_duplicate_scenario :
  let c := (Pull 2 example_pm true [1; 3]
              (Push 1 example_pm true [1; 3] [11; 12; 31; 32] example_container).2).2 in
  ∃ c1, Accept 4 drain example_pm (example_reply 10 2) c
        = Ok (c1, [EvSuccess 2 false])
        ∧ ∃ c2 e2, Accept 4 drain example_pm (example_reply 10 2) c1 = Ok (c2, e2)
                   ∧ pull_pool_ c2 = pull_pool_ c1
                   ∧ pull_aggregator_ c2 = pull_aggregator_ c1.
Proof.
  intros c.
  match eval vm_compute in (Accept 4 drain example_pm (example_reply 10 2) c) with
  | Ok (?c', _) => exists c'
  end.
  assert (Ha : Accept 4 drain example_pm (example_reply 10 2) c
               = Ok (_, [EvSuccess 2 false])) by (vm_compute; reflexivity).
  split; [exact Ha|].
  destruct (Accept_duplicate_reply 4 drain drain_frame example_pm
              (example_reply 10 2) c _ _ Ha) as (c2 & e2 & Ha2 & Hp & Hg & _).
  exists c2, e2. split; [exact Ha2|]. split; [exact Hp|exact Hg].
Defined.

(** X12 on the scenario: push 1 is acknowledged before the pull is issued
    and answered; a [Wait] on time 1 is ready at the end. *)
Lemma completed_future_scenario :
  let c := match Notify 1 (mkHeader 1 1 1)
                   (Push 1 example_pm true [1; 3] [11; 12; 31; 32]
                      example_container).2 with
           | Ok c => c
           | Err _ => example_container
           end in
  let ks := [ (example_pm, CallPull true [1; 3]);
              (example_pm, CallAccept (example_reply 10 2));
              (example_pm, CallAccept (example_reply 11 2));
              (example_pm, CallIncrClock) ] in
  push_pool_ c !! 1 = Some (Some true)
  ∧ ∃ c' evs, run 1 2 4 drain ks c = Ok (c', evs)
              ∧ Wait 1 c' = (FuturePool.Ready true, c').
Proof.
  intros c ks. split; [vm_compute; reflexivity|].
  match eval vm_compute in (run 1 2 4 drain ks c) with
  | Ok (?c', ?evs) => exists c', evs
  end.
  assert (Hrun : run 1 2 4 drain ks c = Ok (_, _)) by (vm_compute; reflexivity).
  destruct (completed_future_stays 1 2 4 drain drain_frame ks c _ _ Hrun)
    as (_ & _ & Hw).
  split; [exact Hrun|]. apply Hw. vm_compute. reflexivity.
Defined.

(** X13 on the scenario: pull 2 is pending on servers 10 and 11; after
    the replies of both, in the order 11, 10, its future is satisfied and
    its pending set is gone. *)
Lemma Accept_completes_scenario :
  let c := (Pull 2 example_pm true [1; 3]
              (Push 1 example_pm true [1; 3] [11; 12; 31; 32] example_container).2).2 in
  let mails := [example_reply 11 2; example_reply 10 2] in
  let p := Aggregator.mkPending {[10; 11]} ∅ in
  Forall (λ m, has_bit (type (flag m)) 4 = true) mails
  ∧ pull_aggregator_ c !! 2 = Some p
  ∧ ∃ c' evs, run 1 2 4 drain (accept_calls example_pm mails) c = Ok (c', evs)
              ∧ pull_pool_ c' !! 2 = Some (Some true)
              ∧ pull_aggregator_ c' !! 2 = None.
Proof.
  intros c mails p.
  assert (Hall : Forall (λ m, has_bit (type (flag m)) 4 = true) mails)
    by (repeat constructor).
  assert (Hp : pull_aggregator_ c !! 2 = Some p) by (vm_compute; reflexivity).
  split; [exact Hall|]. split; [exact Hp|].
  match eval vm_compute in (run 1 2 4 drain (accept_calls example_pm mails) c) with
  | Ok (?c', ?evs) => exists c', evs
  end.
  assert (Hrun : run 1 2 4 drain (accept_calls example_pm mails) c = Ok (_, _))
    by (vm_compute; reflexivity).
  split; [exact Hrun|].
  apply (proj1 (Accept_completes_when_all_replied 1 2 4 drain drain_frame
                  example_pm 2 mails c _ _ p Hall Hp Hrun)).
  - intros n _ Hn. right. simpl in Hn. apply elem_of_senders_at.
    apply elem_of_union in Hn as [Hn|Hn]; apply elem_of_singleton in Hn; subst n.
    + exists (example_reply 10 2). split; [|done].
      apply elem_of_cons. right. apply elem_of_cons. by left.
    + exists (example_reply 11 2). split; [|done]. apply elem_of_cons. by left.
  - apply Exists_cons. by left.
Defined.
